(** * Sparse linear solving through Eigen

    A shallow embedding of [gtsam/linear/EigenOptimizer.cpp]: the assembly of
    the augmented sparse matrix [[A|b]] from the sparse Jacobian entries of a
    Gaussian factor graph ([obtainSparseMatrix]), the two solve templates
    ([solveQR], [solveCholesky]) and the two entry points that dispatch on the
    ordering name ([optimizeEigenQR], [optimizeEigenCholesky]).

    The [gttic_]/[gttoc_] macros only feed the timing instrumentation and are
    left out.  The method [SuccessiveLinearizationOptimizer::ordering] that
    follows in the source is not embedded: its text is not valid C++ (the
    local [params] is used in its own initializer and [.ordering] is applied
    to a shared pointer), so that there is no program to follow. *)

From Stdlib Require Import ZArith NArith String Floats.PrimFloat Lia.
From Stdlib Require Import Floats.SpecFloat Floats.FloatAxioms.
From stdpp Require Import gmap list fin_maps.

Local Open Scope Z_scope.

(** ** Machine integers

    [size_t] is a 64-bit unsigned integer, kept as an [N] below [2^64];
    [int] (Eigen's default [StorageIndex]) is a 32-bit signed integer and
    [Eigen::Index] a 64-bit signed one, both kept as [Z].  Every conversion
    and every arithmetic step of the source is written with its wrap-around. *)
Module Machine.

Definition size_t_modulus : N := (2 ^ 64)%N.

(** Conversion of an unsigned value to [size_t]. *)
Definition to_size_t (n : N) : N := (n mod size_t_modulus)%N.

(** [a + b] on [size_t]. *)
Definition size_add (a b : N) : N := ((a + b) mod size_t_modulus)%N.

(** [a - b] on [size_t]. *)
Definition size_sub (a b : N) : N :=
  ((a + size_t_modulus - b mod size_t_modulus) mod size_t_modulus)%N.

(** Two's complement reading of the low [w] bits of [z]. *)
Definition wrap_signed (w : Z) (z : Z) : Z :=
  (z + 2 ^ (w - 1)) mod 2 ^ w - 2 ^ (w - 1).

(** [size_t] to [int]: the narrowing that happens when an
    [Eigen::Triplet<double>] is built from [size_t] indices. *)
Definition to_int (n : N) : Z := wrap_signed 32 (Z.of_N n).

(** [size_t] to [Eigen::Index]. *)
Definition to_Index (n : N) : Z := wrap_signed 64 (Z.of_N n).

(** [Eigen::Index] to [size_t]. *)
Definition of_Index (z : Z) : N := Z.to_N (z mod 2 ^ 64).

(** The largest value of an [int]. *)
Definition INT_MAX : Z := 2 ^ 31 - 1.

End Machine.

(** ** Scalars

    [Eigen::SparseMatrix] is a template over its scalar type; the source
    instantiates it at [double].  The interface below is what the matrix
    operations need from the scalar. *)
Class Scalar (V : Type) := {
  s_zero : V;
  s_add : V -> V -> V;
  s_mul : V -> V -> V
}.

(** [double]: IEEE 754 binary64. *)
#[export] Instance double_scalar : Scalar float := {|
  s_zero := 0%float;
  s_add := PrimFloat.add;
  s_mul := PrimFloat.mul
|}.

(** Exact integers, a scalar whose arithmetic never rounds. *)
#[export] Instance exact_scalar : Scalar Z := {|
  s_zero := 0;
  s_add := Z.add;
  s_mul := Z.mul
|}.

(** The sum of a sequence of scalars the way accumulation produces it: the
    first value is taken as it is and every later one is added on the right. *)
Definition sum_in_order {V} `{Scalar V} (vs : list V) : V :=
  match vs with
  | [] => s_zero
  | v :: vs' => foldl s_add v vs'
  end.

(** ** Eigen data *)
Section Eigen.
Context {V : Type} `{Scalar V}.

(** One element of [gfg.sparseJacobian()]: a
    [boost::tuple<size_t, size_t, double>]. *)
Record SparseEntry := mkEntry {
  get0 : N;
  get1 : N;
  get2 : V
}.

(** [Eigen::Triplet<double>]: indices are [int]. *)
Record Triplet := mkTriplet {
  row : Z;
  col : Z;
  value : V
}.

(** [Eigen::SparseMatrix<double>]: a shape and the stored coefficients, keyed
    by [(row, col)].  The compressed column layout is not represented: two
    matrices are equal when they have the same shape and store the same
    coefficients. *)
Record SpMat := mkSpMat {
  rows : Z;
  cols : Z;
  coeffs : gmap (Z * Z) V
}.

(** [m.coeff(i, j)]: a coefficient that is not stored reads as zero. *)
Definition coeff (m : SpMat) (i j : Z) : V :=
  default s_zero (coeffs m !! (i, j)).

(** [SpMat m(r, c)]: an empty matrix of the given shape. *)
Definition SpMat_new (r c : Z) : SpMat := mkSpMat r c ∅.

(** The check [setFromTriplets] makes on every triplet
    ([eigen_assert(it->row()>=0 && it->row()<mat.rows() && ...)]). *)
Definition inside (m : SpMat) (t : Triplet) : bool :=
  bool_decide (0 ≤ row t < rows m ∧ 0 ≤ col t < cols m).

(** One triplet going into the matrix: the first value at a coordinate is
    stored, a later one is added to what is there. *)
Definition accumulate (d : gmap (Z * Z) V) (t : Triplet) : gmap (Z * Z) V :=
  let k := (row t, col t) in
  <[ k := match d !! k with
          | Some old => s_add old (value t)
          | None => value t
          end ]> d.

(** [m.setFromTriplets(begin, end)]: the previous content is dropped and the
    triplets are accumulated in the order of the range.  [None] stands for
    a triplet outside the matrix, where Eigen's assertion fails (and the
    behaviour is undefined when assertions are compiled out). *)
Definition setFromTriplets (m : SpMat) (ts : list Triplet) : option SpMat :=
  if forallb (inside m) ts
  then Some (mkSpMat (rows m) (cols m) (foldl accumulate ∅ ts))
  else None.

(** [m.makeCompressed()] changes the storage mode only. *)
Definition makeCompressed (m : SpMat) : SpMat := m.

(** The coordinate of a coefficient inside a block that starts at
    [(startRow, startCol)]. *)
Definition shift (startRow startCol : Z) (k : Z * Z) : Z * Z :=
  (k.1 - startRow, k.2 - startCol).

(** [m.block(startRow, startCol, blockRows, blockCols)], with the range
    check of the block constructor. *)
Definition block (m : SpMat) (startRow startCol blockRows blockCols : Z)
  : option SpMat :=
  if decide (0 ≤ startRow ∧ 0 ≤ blockRows ∧ startRow ≤ rows m - blockRows ∧
             0 ≤ startCol ∧ 0 ≤ blockCols ∧ startCol ≤ cols m - blockCols)
  then Some (mkSpMat blockRows blockCols
               (kmap (shift startRow startCol)
                  (filter (λ kv, startRow ≤ kv.1.1 < startRow + blockRows ∧
                                 startCol ≤ kv.1.2 < startCol + blockCols)
                          (coeffs m))))
  else None.

(** [m.col(j)]: the block made of column [j]. *)
Definition column (m : SpMat) (j : Z) : option SpMat :=
  if decide (0 ≤ j < cols m) then block m 0 j (rows m) 1 else None.

(** [m.transpose()]. *)
Definition transpose (m : SpMat) : SpMat :=
  mkSpMat (cols m) (rows m) (kmap prod_swap (coeffs m)).

(** The products [a(i,k) * b(k,j)] of the coefficients both matrices store,
    by increasing [k]. *)
Definition terms (a b : SpMat) (i j : Z) : list V :=
  omap (λ k, x ← coeffs a !! (i, k); y ← coeffs b !! (k, j); Some (s_mul x y))
       (seqZ 0 (cols a)).

(** [a * b] on sparse operands: a coefficient is stored where at least one
    product of stored coefficients lands, and holds their in-order sum. *)
Definition product (a b : SpMat) : option SpMat :=
  if decide (cols a = rows b)
  then Some (mkSpMat (rows a) (cols b)
               (list_to_map
                  (omap (λ ij, match terms a b ij.1 ij.2 with
                               | [] => None
                               | vs => Some (ij, sum_in_order vs)
                               end)
                        (i ← seqZ 0 (rows a); j ← seqZ 0 (cols b); [(i, j)]))))
  else None.

End Eigen.

Arguments SparseEntry V : clear implicits.
Arguments Triplet V : clear implicits.
Arguments SpMat V : clear implicits.

(** The fill-reducing orderings of Eigen the source names. *)
Inductive Ordering :=
  | AMDOrdering
  | COLAMDOrdering
  | NaturalOrdering
  | MetisOrdering.

(** The solver types the two templates are instantiated with:
    [Eigen::SparseQR<SpMat, O>] and
    [Eigen::SimplicialLDLT<SpMat, Eigen::Lower, O>]. *)
Inductive EigenSolverType :=
  | SparseQR (o : Ordering)
  | SimplicialLDLT_Lower (o : Ordering).

(** One factorization handed to Eigen: the solver type, the matrix it was
    constructed on and the right-hand side it was asked to solve for. *)
Record SolveCall (V : Type) := mkCall {
  call_solver : EigenSolverType;
  call_matrix : SpMat V;
  call_rhs : SpMat V
}.
Arguments mkCall {V}.
Arguments call_solver {V}.
Arguments call_matrix {V}.
Arguments call_rhs {V}.

(** What this file reads of a [GaussianFactorGraph]: its sparse Jacobian
    entries and its key-to-dimension map. *)
Record GaussianFactorGraph (V KeyDimMap : Type) := mkGraph {
  sparseJacobian : list (SparseEntry V);
  getKeyDimMap : KeyDimMap
}.
Arguments mkGraph {V KeyDimMap}.
Arguments sparseJacobian {V KeyDimMap}.
Arguments getKeyDimMap {V KeyDimMap}.

(** ** Computations that may stop on a failed Eigen assertion and that record
    the factorizations they ask for

    A computation that ran to its end carries the calls it made.  A failed
    one is [None] and carries nothing: it says that an assertion of Eigen
    did not hold, not which calls came before. *)
Definition Run (V A : Type) : Type := option (A * list (SolveCall V)).

Definition ret {V A} (a : A) : Run V A := Some (a, []).

Definition bind {V A B} (m : Run V A) (k : A -> Run V B) : Run V B :=
  match m with
  | None => None
  | Some (a, log) =>
      match k a with
      | None => None
      | Some (b, log') => Some (b, log ++ log')
      end
  end.

(** An Eigen operation that either yields a value or fails its assertion. *)
Definition lift {V A} (o : option A) : Run V A :=
  match o with
  | None => None
  | Some a => ret a
  end.

Notation "'let*' x ':=' m 'in' k" := (bind m (fun x => k))
  (at level 10, x name, m at level 100, k at level 200).

(** ** The program *)
Section EigenOptimizer.
Context {V : Type} `{Scalar V}.

(** [KeyDimMap] and [VectorValues] are declared outside this file; the
    [VectorValues(x, dims)] constructor is taken as it comes. *)
Context {KeyDimMap VectorValues : Type}.
Variable mkVectorValues : list V -> KeyDimMap -> VectorValues.

(** The numerical kernel: what [EigenSolverType solver(matrix)] followed by
    [solver.solve(rhs)] evaluates to, as an [Eigen::VectorXd]. *)
Variable kernel : EigenSolverType -> SpMat V -> SpMat V -> list V.

(** The loop of [obtainSparseMatrix]: one triplet per entry, and the largest
    row and column index met so far. *)
Definition scan (st : list (Triplet V) * N * N) (e : SparseEntry V)
  : list (Triplet V) * N * N :=
  let '(triplets, rows, cols) := st in
  let temp_rows := Machine.to_size_t (get0 e) in
  let temp_cols := Machine.to_size_t (get1 e) in
  (triplets ++ [mkTriplet (Machine.to_int temp_rows) (Machine.to_int temp_cols)
                          (get2 e)],
   N.max rows temp_rows, N.max cols temp_cols).

Definition obtainSparseMatrix (gfg : GaussianFactorGraph V KeyDimMap)
  : option (SpMat V) :=
  let entries := sparseJacobian gfg in
  let '(triplets, rows, cols) := foldl scan ([], 0%N, 0%N) entries in
  let Ab := SpMat_new (Machine.to_Index (Machine.size_add rows 1))
                      (Machine.to_Index (Machine.size_add cols 1)) in
  Ab ← setFromTriplets Ab triplets;
  Some (makeCompressed Ab).

(** Construction of the solver on [matrix] and [solver.solve(rhs)], with the
    shape assertions of Eigen. *)
Definition solve (T : EigenSolverType) (matrix rhs : SpMat V) : Run V (list V) :=
  if bool_decide (rows matrix = rows rhs) &&
     match T with
     | SparseQR _ => true
     | SimplicialLDLT_Lower _ => bool_decide (rows matrix = cols matrix)
     end
  then Some (kernel T matrix rhs, [mkCall T matrix rhs])
  else None.

Definition solveQR (T : EigenSolverType) (Ab : SpMat V) : Run V (list V) :=
  let rows := Machine.of_Index (rows Ab) in
  let cols := Machine.of_Index (cols Ab) in
  let* A := lift (block Ab 0 0 (Machine.to_Index rows)
                        (Machine.to_Index (Machine.size_sub cols 1))) in
  let* b := lift (column Ab (Machine.to_Index (Machine.size_sub cols 1))) in
  solve T A b.

Definition optimizeEigenQR (gfg : GaussianFactorGraph V KeyDimMap)
  (orderingType : string) : Run V VectorValues :=
  let* Ab := lift (obtainSparseMatrix gfg) in
  let* x :=
    if String.eqb orderingType "AMD" then solveQR (SparseQR AMDOrdering) Ab
    else if String.eqb orderingType "COLAMD"
    then solveQR (SparseQR COLAMDOrdering) Ab
    else if String.eqb orderingType "NATURAL"
    then solveQR (SparseQR NaturalOrdering) Ab
    else if String.eqb orderingType "METIS"
    then solveQR (SparseQR MetisOrdering) Ab
    else ret [] in
  ret (mkVectorValues x (getKeyDimMap gfg)).

Definition solveCholesky (T : EigenSolverType) (Ab : SpMat V) : Run V (list V) :=
  let rows := Machine.of_Index (rows Ab) in
  let cols := Machine.of_Index (cols Ab) in
  let* A := lift (block Ab 0 0 (Machine.to_Index rows)
                        (Machine.to_Index (Machine.size_sub cols 1))) in
  let At := transpose A in
  let* b := lift (column Ab (Machine.to_Index (Machine.size_sub cols 1))) in
  let* AtA := lift (product At A) in
  let* Atb := lift (product At b) in
  solve T AtA Atb.

Definition optimizeEigenCholesky (gfg : GaussianFactorGraph V KeyDimMap)
  (orderingType : string) : Run V VectorValues :=
  let* Ab := lift (obtainSparseMatrix gfg) in
  let* x :=
    if String.eqb orderingType "AMD"
    then solveCholesky (SimplicialLDLT_Lower AMDOrdering) Ab
    else if String.eqb orderingType "COLAMD"
    then solveCholesky (SimplicialLDLT_Lower COLAMDOrdering) Ab
    else if String.eqb orderingType "NATURAL"
    then solveCholesky (SimplicialLDLT_Lower NaturalOrdering) Ab
    else if String.eqb orderingType "METIS"
    then solveCholesky (SimplicialLDLT_Lower MetisOrdering) Ab
    else ret [] in
  ret (mkVectorValues x (getKeyDimMap gfg)).

End EigenOptimizer.

(** ** The vocabulary of the statements *)
Section Vocabulary.
Context {V : Type} `{Scalar V}.
Implicit Types (e : SparseEntry V) (es : list (SparseEntry V)).
Implicit Types (t : Triplet V) (ts : list (Triplet V)).
Implicit Types (k : Z * Z).

(** The triplet the loop builds for an entry. *)
Definition triplet_of e : Triplet V :=
  mkTriplet (Machine.to_int (Machine.to_size_t (get0 e)))
            (Machine.to_int (Machine.to_size_t (get1 e))) (get2 e).

(** The largest index among the entries, [0] when there is none. *)
Definition max_index (f : SparseEntry V -> N) es : N :=
  foldr (λ e m, N.max m (f e)) 0%N es.

(** The entries whose indices are valid [int]s, the index type of Eigen. *)
Definition fits_int es : Prop :=
  Forall (λ e, Z.of_N (get0 e) ≤ Machine.INT_MAX ∧
               Z.of_N (get1 e) ≤ Machine.INT_MAX) es.

(** The values of the entries that target coordinate [(i, j)], in the order
    of the sequence. *)
Definition targeting (i j : Z) es : list V :=
  get2 <$> filter (λ e, Z.of_N (get0 e) = i ∧ Z.of_N (get1 e) = j) es.

(** The values of the triplets at coordinate [k], in order. *)
Definition values_at k ts : list V :=
  value <$> filter (λ t, (row t, col t) = k) ts.

(** What a coordinate holds after more values are accumulated into it. *)
Definition accumulated (o : option V) (vs : list V) : option V :=
  foldl (λ o v, Some match o with
                     | Some old => s_add old v
                     | None => v
                     end) o vs.

(** [m] is the largest value of [f] over the entries, and [0] when there
    is no entry. *)
Definition is_max_index (f : SparseEntry V -> N) es (m : N) : Prop :=
  (∀ e, e ∈ es -> (f e ≤ m)%N) ∧
  match es with
  | [] => m = 0%N
  | _ => ∃ e, e ∈ es ∧ f e = m
  end.

(** The row and the column index of an entry as the loop holds them, in its
    [size_t] variables [temp_rows] and [temp_cols]. *)
Definition row_index e : N := Machine.to_size_t (get0 e).
Definition col_index e : N := Machine.to_size_t (get1 e).

End Vocabulary.


(** The four ordering names and the Eigen ordering each one selects. *)
Definition ordering_of (orderingType : string) : option Ordering :=
  if String.eqb orderingType "NATURAL" then Some NaturalOrdering
  else if String.eqb orderingType "AMD" then Some AMDOrdering
  else if String.eqb orderingType "COLAMD" then Some COLAMDOrdering
  else if String.eqb orderingType "METIS" then Some MetisOrdering
  else None.

(** ** Concrete systems *)

(** Two entries for one coordinate. *)
Definition twice : GaussianFactorGraph float unit :=
  mkGraph [mkEntry 0 0 2%float; mkEntry 0 0 3%float] tt.

(** The system of the two factors [1 x = 2] and [1 x = 4]. *)
Definition two_factors : GaussianFactorGraph float unit :=
  mkGraph [mkEntry 0 0 1%float; mkEntry 0 1 2%float;
           mkEntry 1 0 1%float; mkEntry 1 1 4%float] tt.




(** Two entries whose row indices differ by [2^32]. *)
Definition collide : GaussianFactorGraph float unit :=
  mkGraph [mkEntry (2 ^ 32 + 5) 0 1%float; mkEntry 5 0 2%float] tt.

(** Three values for one coordinate, in two orders. *)
Definition large_small_large : GaussianFactorGraph float unit :=
  mkGraph [mkEntry 0 0 1e16%float; mkEntry 0 0 1%float;
           mkEntry 0 0 (-1e16)%float] tt.

Definition large_large_small : GaussianFactorGraph float unit :=
  mkGraph [mkEntry 0 0 1e16%float; mkEntry 0 0 (-1e16)%float;
           mkEntry 0 0 1%float] tt.

(** The same entries with exact scalars. *)
Definition exact_one : GaussianFactorGraph Z unit :=
  mkGraph [mkEntry 0 0 5; mkEntry 0 0 1; mkEntry 1 2 (-5)] tt.

Definition exact_other : GaussianFactorGraph Z unit :=
  mkGraph [mkEntry 0 0 5; mkEntry 1 2 (-5); mkEntry 0 0 1] tt.

(** One entry whose row index is the first that is not an [int]. *)
Definition past_int : GaussianFactorGraph float unit :=
  mkGraph [mkEntry (2 ^ 31) 0 1%float] tt.

(** The factor graph without factors. *)
Definition no_factor : GaussianFactorGraph float unit := mkGraph [] tt.

(** A stand-in for the numerical kernel: the zero vector of the size Eigen
    returns, one value per column of the factorized matrix. *)
Definition zero_kernel (T : EigenSolverType) (A b : SpMat float) : list float :=
  replicate (Z.to_nat (cols A)) 0%float.

(** A stand-in for the [VectorValues] constructor that keeps the vector. *)
Definition flat_values (x : list float) (dims : unit) : list float := x.

(** The entries of a concrete system fit in an [int]. *)
Ltac fits := unfold fits_int, Machine.INT_MAX; repeat constructor; simpl; lia.

(** ** The normal equations, read on the augmented matrix *)
Section NormalEquations.
Context {V : Type} `{Scalar V}.

(** The products [Ab(k,i) * Ab(k,j)] over the rows [k] in which [Ab] stores
    both coefficients, by increasing [k]. *)
Definition column_products (Ab : SpMat V) (i j : Z) : list V :=
  omap (λ k, x ← coeffs Ab !! (k, i); y ← coeffs Ab !! (k, j);
             Some (s_mul x y))
       (seqZ 0 (rows Ab)).

End NormalEquations.

(** The augmented matrix [[1 2; 1 4]] of the two factors. *)
Definition augmented_two : SpMat float :=
  mkSpMat 2 2 (list_to_map [((0, 0), 1%float); ((0, 1), 2%float);
                            ((1, 0), 1%float); ((1, 1), 4%float)]).

(** The two entries of [twice] followed by one more. *)
Definition twice_and_one : GaussianFactorGraph float unit :=
  mkGraph (sparseJacobian twice ++ [mkEntry 1 1 7%float]) tt.

(** ** Facts about the machine integers *)
Module MachineFacts.
Import Machine.

Lemma wrap_signed_small w z :
  0 < w -> - 2 ^ (w - 1) ≤ z < 2 ^ (w - 1) -> wrap_signed w z = z.
Proof.
  intros Hw Hz. unfold wrap_signed.
  assert (2 ^ w = 2 * 2 ^ (w - 1)) as E.
  { replace w with (Z.succ (w - 1)) at 1 by lia. apply Z.pow_succ_r. lia. }
  rewrite Z.mod_small; lia.
Qed.

Lemma to_size_t_small n : Z.of_N n ≤ INT_MAX -> to_size_t n = n.
Proof.
  unfold to_size_t, size_t_modulus, INT_MAX. intros Hn.
  apply N.mod_small. lia.
Qed.

Lemma to_int_small n : Z.of_N n ≤ INT_MAX -> to_int n = Z.of_N n.
Proof.
  unfold to_int, INT_MAX. intros Hn. apply wrap_signed_small; lia.
Qed.

Lemma to_Index_succ n :
  Z.of_N n ≤ INT_MAX -> to_Index (size_add n 1) = Z.of_N n + 1.
Proof.
  unfold to_Index, size_add, size_t_modulus, INT_MAX. intros Hn.
  rewrite N.mod_small by lia.
  rewrite wrap_signed_small; lia.
Qed.

Lemma to_Index_of_Index z : 0 ≤ z < 2 ^ 63 -> to_Index (of_Index z) = z.
Proof.
  intros Hz. unfold to_Index, of_Index.
  rewrite Z.mod_small, Z2N.id by lia.
  apply wrap_signed_small; lia.
Qed.

Lemma to_Index_pred z :
  1 ≤ z < 2 ^ 63 -> to_Index (size_sub (of_Index z) 1) = z - 1.
Proof.
  intros Hz. unfold to_Index, size_sub, of_Index, size_t_modulus.
  rewrite Z.mod_small by lia.
  rewrite (N.mod_small 1) by lia.
  assert ((Z.to_N z + 2 ^ 64 - 1) mod 2 ^ 64 = Z.to_N (z - 1))%N as ->.
  { replace (Z.to_N z + 2 ^ 64 - 1)%N with (Z.to_N (z - 1) + 1 * 2 ^ 64)%N
      by lia.
    rewrite N.Div0.mod_add. apply N.mod_small. lia. }
  rewrite Z2N.id by lia.
  apply wrap_signed_small; lia.
Qed.

End MachineFacts.

(** ** Blocks keep distinct coordinates distinct *)
#[export] Instance shift_inj startRow startCol :
  Inj (=) (=) (shift startRow startCol).
Proof.
  intros [i j] [i' j']; unfold shift; simpl; intros [= ? ?].
  f_equal; lia.
Qed.

(** ** Assembly *)
Section Assembly.
Context {V : Type} `{Scalar V} {KeyDimMap : Type}.
Implicit Types (e : SparseEntry V) (es : list (SparseEntry V)).
Implicit Types (t : Triplet V) (ts : list (Triplet V)).
Implicit Types (d : gmap (Z * Z) V) (k : Z * Z).

Lemma scan_foldl es ts r c :
  foldl scan (ts, r, c) es =
  (ts ++ (triplet_of <$> es),
   foldl (λ m e, N.max m (Machine.to_size_t (get0 e))) r es,
   foldl (λ m e, N.max m (Machine.to_size_t (get1 e))) c es).
Proof.
  revert ts r c. induction es as [|e es IH]; intros ts r c; simpl.
  - by rewrite app_nil_r.
  - rewrite IH. by rewrite <- app_assoc.
Qed.

Lemma foldl_max_ge (f : SparseEntry V -> N) es (m : N) :
  (m ≤ foldl (λ m e, N.max m (f e)) m es)%N.
Proof.
  revert m. induction es as [|e es IH]; intros m; simpl; [lia|].
  specialize (IH (N.max m (f e))). lia.
Qed.

Lemma foldl_max_elem (f : SparseEntry V -> N) es (m : N) e :
  e ∈ es -> (f e ≤ foldl (λ m e, N.max m (f e)) m es)%N.
Proof.
  revert m. induction es as [|e' es IH]; intros m Hin; simpl.
  - by apply elem_of_nil in Hin.
  - apply elem_of_cons in Hin as [->|Hin]; [|by apply IH].
    pose proof (foldl_max_ge f es (N.max m (f e'))). lia.
Qed.

Lemma foldl_max_index (f g : SparseEntry V -> N) es (m : N) :
  Forall (λ e, g e = f e) es ->
  foldl (λ m e, N.max m (g e)) m es = N.max m (max_index f es).
Proof.
  intros Hfg. revert m. induction Hfg as [|e es Heq _ IH]; intros m; simpl.
  - lia.
  - rewrite IH, Heq. unfold max_index at 2. simpl.
    fold (max_index f es). lia.
Qed.

Lemma max_index_bound (f : SparseEntry V -> N) es (b : Z) :
  0 ≤ b -> Forall (λ e, Z.of_N (f e) ≤ b) es -> Z.of_N (max_index f es) ≤ b.
Proof.
  intros Hb. induction 1 as [|e es He _ IH]; simpl; lia.
Qed.

Lemma max_index_elem (f : SparseEntry V -> N) es e :
  e ∈ es -> (f e ≤ max_index f es)%N.
Proof.
  induction es as [|e' es IH]; intros Hin; simpl.
  - by apply elem_of_nil in Hin.
  - apply elem_of_cons in Hin as [->|Hin]; [lia|].
    specialize (IH Hin). lia.
Qed.

Lemma accumulate_lookup d t k :
  accumulate d t !! k =
  if decide ((row t, col t) = k)
  then accumulated (d !! k) [value t]
  else d !! k.
Proof.
  unfold accumulate. case_decide as Hk.
  - subst k. by rewrite lookup_insert_eq.
  - by rewrite lookup_insert_ne.
Qed.

Lemma foldl_accumulate_lookup ts d k :
  foldl accumulate d ts !! k = accumulated (d !! k) (values_at k ts).
Proof.
  revert d. induction ts as [|t ts IH]; intros d; simpl; [done|].
  rewrite IH, accumulate_lookup. unfold values_at.
  rewrite filter_cons. case_decide; simpl; done.
Qed.

Lemma accumulated_None vs :
  accumulated None vs = match vs with [] => None | _ => Some (sum_in_order vs) end.
Proof.
  destruct vs as [|v vs]; simpl; [done|].
  generalize v. induction vs as [|w vs IH]; intros u; simpl; [done|].
  apply IH.
Qed.

Lemma values_at_triplets (i j : Z) es :
  fits_int es -> values_at (i, j) (triplet_of <$> es) = targeting i j es.
Proof.
  unfold values_at, targeting.
  induction 1 as [|e es [Hr Hc] _ IH]; simpl; [done|].
  rewrite !filter_cons. unfold triplet_of at 1. simpl.
  rewrite !MachineFacts.to_size_t_small, !MachineFacts.to_int_small by done.
  destruct (decide (Z.of_N (get0 e) = i ∧ Z.of_N (get1 e) = j)) as [[Hi Hj]|Hne].
  - rewrite decide_True by (simpl; congruence). simpl. f_equal. exact IH.
  - rewrite decide_False; [exact IH|]. simpl. intros [= Hi Hj]. by apply Hne.
Qed.

Lemma max_index_is_max (f : SparseEntry V -> N) es :
  is_max_index f es (max_index f es).
Proof.
  split; [intros e; apply max_index_elem|].
  induction es as [|e es IH]; [done|].
  destruct (decide (max_index f es ≤ f e)%N) as [Hle|Hgt].
  - exists e. split; [apply list_elem_of_here|]. simpl.
    fold (max_index f es). lia.
  - destruct es as [|e' es]; [simpl in Hgt; lia|].
    destruct IH as (e0 & Hin & Heq).
    exists e0. split; [by apply list_elem_of_further|].
    change (f e0 = N.max (max_index f (e' :: es)) (f e)). lia.
Qed.

(** The loop and the calls that follow it, in one expression. *)
Lemma obtainSparseMatrix_unfold (gfg : GaussianFactorGraph V KeyDimMap) :
  let es := sparseJacobian gfg in
  obtainSparseMatrix gfg =
  setFromTriplets
    (SpMat_new
       (Machine.to_Index
          (Machine.size_add (max_index (Machine.to_size_t ∘ get0) es) 1))
       (Machine.to_Index
          (Machine.size_add (max_index (Machine.to_size_t ∘ get1) es) 1)))
    (triplet_of <$> es).
Proof.
  intros es. unfold obtainSparseMatrix. fold es.
  rewrite scan_foldl.
  rewrite (foldl_max_index (Machine.to_size_t ∘ get0)) by by apply Forall_true.
  rewrite (foldl_max_index (Machine.to_size_t ∘ get1)) by by apply Forall_true.
  rewrite !N.max_0_l. simpl.
  by destruct (setFromTriplets _ _).
Qed.

Lemma max_index_ext (f g : SparseEntry V -> N) es :
  Forall (λ e, f e = g e) es -> max_index f es = max_index g es.
Proof. induction 1 as [|e es He _ IH]; simpl; [done|]. by rewrite IH, He. Qed.

(** Within the [int] range nothing wraps and every triplet lies inside the
    matrix, so that the assertion of [setFromTriplets] holds. *)
Lemma obtainSparseMatrix_fits (gfg : GaussianFactorGraph V KeyDimMap) :
  let es := sparseJacobian gfg in
  fits_int es ->
  obtainSparseMatrix gfg =
  Some (mkSpMat (Z.of_N (max_index get0 es) + 1)
                (Z.of_N (max_index get1 es) + 1)
                (foldl accumulate ∅ (triplet_of <$> es))).
Proof.
  intros es Hfit. rewrite obtainSparseMatrix_unfold. fold es.
  assert (max_index (Machine.to_size_t ∘ get0) es = max_index get0 es) as ->.
  { apply max_index_ext. eapply Forall_impl; [exact Hfit|].
    intros e [? ?]. by apply MachineFacts.to_size_t_small. }
  assert (max_index (Machine.to_size_t ∘ get1) es = max_index get1 es) as ->.
  { apply max_index_ext. eapply Forall_impl; [exact Hfit|].
    intros e [? ?]. by apply MachineFacts.to_size_t_small. }
  assert (0 ≤ Machine.INT_MAX) as Hpos by (unfold Machine.INT_MAX; lia).
  rewrite !MachineFacts.to_Index_succ.
  2:{ apply max_index_bound; [done|].
      eapply Forall_impl; [exact Hfit|]. by intros e [? ?]. }
  2:{ apply max_index_bound; [done|].
      eapply Forall_impl; [exact Hfit|]. by intros e [? ?]. }
  unfold setFromTriplets, SpMat_new. simpl.
  assert (forallb
            (inside (mkSpMat (Z.of_N (max_index get0 es) + 1)
                             (Z.of_N (max_index get1 es) + 1) ∅))
            (triplet_of <$> es) = true) as ->; [|done].
  apply forallb_forall. intros t Ht.
  apply list_elem_of_In, list_elem_of_fmap in Ht as (e & -> & Hin).
  pose proof (max_index_elem get0 es e Hin).
  pose proof (max_index_elem get1 es e Hin).
  unfold fits_int in Hfit. rewrite Forall_forall in Hfit.
  destruct (Hfit e Hin) as [Hr Hc].
  unfold inside, triplet_of. simpl.
  rewrite !MachineFacts.to_size_t_small, !MachineFacts.to_int_small by done.
  apply bool_decide_eq_true. lia.
Qed.


(** *** The order of the entries *)

Lemma max_index_permutation (f : SparseEntry V -> N) es es' :
  es ≡ₚ es' -> max_index f es = max_index f es'.
Proof.
  induction 1 as [|e es es' _ IH|e e' es|es es' es'' _ IH _ IH']; simpl.
  - done.
  - by rewrite IH.
  - lia.
  - by rewrite IH.
Qed.

Lemma forallb_permutation {A} (p : A -> bool) (l l' : list A) :
  l ≡ₚ l' -> forallb p l = forallb p l'.
Proof.
  induction 1 as [|x l l' _ IH|x y l|l l' l'' _ IH _ IH']; simpl.
  - done.
  - by rewrite IH.
  - by destruct (p x), (p y).
  - by rewrite IH.
Qed.

Lemma values_at_permutation k ts ts' :
  ts ≡ₚ ts' -> values_at k ts ≡ₚ values_at k ts'.
Proof. intros Hp. unfold values_at. by rewrite Hp. Qed.

Lemma accumulated_permutation (o : option V) (vs vs' : list V) :
  (∀ x y z : V, s_add x (s_add y z) = s_add (s_add x y) z) ->
  (∀ x y : V, s_add x y = s_add y x) ->
  vs ≡ₚ vs' -> accumulated o vs = accumulated o vs'.
Proof.
  intros Hassoc Hcomm Hp. revert o.
  induction Hp as [|x l l' _ IH|x y l|l l' l'' _ IH _ IH']; intros o.
  - done.
  - apply IH.
  - unfold accumulated. simpl. f_equal. f_equal.
    destruct o as [a|].
    + by rewrite <- !Hassoc, (Hcomm x y).
    + apply Hcomm.
  - by rewrite IH.
Qed.

Lemma accumulated_is_Some (vs : list V) :
  is_Some (accumulated None vs) ↔ vs ≠ [].
Proof.
  rewrite accumulated_None. destruct vs as [|v vs].
  - split; [by intros [? ?]|done].
  - split; [done|]. intros _. by eexists.
Qed.

(** The shape and the set of stored coordinates do not depend on the order
    of the triplets. *)
Lemma setFromTriplets_permutation (m : SpMat V) ts ts' :
  ts ≡ₚ ts' ->
  match setFromTriplets m ts, setFromTriplets m ts' with
  | Some a, Some a' =>
      rows a = rows a' ∧ cols a = cols a' ∧
      dom (coeffs a) = dom (coeffs a') ∧
      ∀ i j, values_at (i, j) ts ≡ₚ values_at (i, j) ts' ∧
             coeff a i j = sum_in_order (values_at (i, j) ts) ∧
             coeff a' i j = sum_in_order (values_at (i, j) ts')
  | None, None => True
  | _, _ => False
  end.
Proof.
  intros Hp. unfold setFromTriplets.
  rewrite <- (forallb_permutation _ _ _ Hp).
  destruct (forallb (inside m) ts); [|done]. simpl.
  split; [done|]. split; [done|]. split.
  - apply set_eq. intros k. rewrite !elem_of_dom.
    rewrite !foldl_accumulate_lookup, !lookup_empty, !accumulated_is_Some.
    pose proof (values_at_permutation k _ _ Hp) as Hk.
    split; intros Hne Hnil; apply Hne.
    + rewrite Hnil in Hk. by apply Permutation_nil_r in Hk.
    + rewrite Hnil in Hk. by apply Permutation_nil_l in Hk.
  - intros i j. split; [by apply values_at_permutation|].
    unfold coeff. simpl.
    rewrite !foldl_accumulate_lookup, !lookup_empty, !accumulated_None.
    split.
    + by destruct (values_at (i, j) ts).
    + by destruct (values_at (i, j) ts').
Qed.

(** With an addition that is associative and commutative the whole matrix is
    the same. *)
Lemma setFromTriplets_permutation_exact (m : SpMat V) ts ts' :
  (∀ x y z : V, s_add x (s_add y z) = s_add (s_add x y) z) ->
  (∀ x y : V, s_add x y = s_add y x) ->
  ts ≡ₚ ts' -> setFromTriplets m ts = setFromTriplets m ts'.
Proof.
  intros Hassoc Hcomm Hp. unfold setFromTriplets.
  rewrite <- (forallb_permutation _ _ _ Hp).
  destruct (forallb (inside m) ts); [|done].
  f_equal. f_equal. apply map_eq. intros k.
  rewrite !foldl_accumulate_lookup.
  apply accumulated_permutation; [done..|].
  by apply values_at_permutation.
Qed.

End Assembly.

(** ** The assembled matrix *)
Section AssemblyTheorems.
Context {V : Type} `{Scalar V} {KeyDimMap : Type}.
Implicit Types (gfg : GaussianFactorGraph V KeyDimMap).

(** C1. For every sequence of sparse entries (with indices in the [int]
    range of Eigen), [obtainSparseMatrix] produces a matrix whose coefficient
    at each coordinate is the sum of the values of all entries that target
    the coordinate, taken in the order of the sequence, so that a later
    duplicate is added to the earlier ones and never replaces them; a
    coordinate that no entry targets reads as zero. *)
Theorem assembled_coefficients gfg :
  fits_int (sparseJacobian gfg) ->
  ∃ Ab, obtainSparseMatrix gfg = Some Ab ∧
        (∀ i j, coeff Ab i j = sum_in_order (targeting i j (sparseJacobian gfg))) ∧
        (∀ i j, targeting i j (sparseJacobian gfg) = [] -> coeff Ab i j = s_zero).
Proof.
  intros Hfit. eexists. split; [by apply obtainSparseMatrix_fits|].
  assert (∀ i j,
    coeff (mkSpMat (Z.of_N (max_index get0 (sparseJacobian gfg)) + 1)
                   (Z.of_N (max_index get1 (sparseJacobian gfg)) + 1)
                   (foldl accumulate ∅ (triplet_of <$> sparseJacobian gfg))) i j
    = sum_in_order (targeting i j (sparseJacobian gfg))) as Hsum.
  { intros i j. unfold coeff. simpl.
    rewrite foldl_accumulate_lookup, lookup_empty, accumulated_None.
    rewrite values_at_triplets by done.
    by destruct (targeting i j (sparseJacobian gfg)). }
  split; [exact Hsum|].
  intros i j Hnone. by rewrite Hsum, Hnone.
Qed.

(** C8, as amended. For every entry sequence and every permutation of it,
    the two assembled matrices have the same shape and store the same
    coordinates, and each coefficient is the in-order sum of the same values
    in a possibly different order; the two matrices are equal when the
    addition of the scalars is associative and commutative. *)
Theorem assembly_order gfg gfg' :
  sparseJacobian gfg ≡ₚ sparseJacobian gfg' ->
  match obtainSparseMatrix gfg, obtainSparseMatrix gfg' with
  | Some Ab, Some Ab' =>
      rows Ab = rows Ab' ∧ cols Ab = cols Ab' ∧
      dom (coeffs Ab) = dom (coeffs Ab') ∧
      ∀ i j,
        let vs := values_at (i, j) (triplet_of <$> sparseJacobian gfg) in
        let vs' := values_at (i, j) (triplet_of <$> sparseJacobian gfg') in
        vs ≡ₚ vs' ∧ coeff Ab i j = sum_in_order vs ∧
        coeff Ab' i j = sum_in_order vs'
  | None, None => True
  | _, _ => False
  end ∧
  ((∀ x y z : V, s_add x (s_add y z) = s_add (s_add x y) z) ->
   (∀ x y : V, s_add x y = s_add y x) ->
   obtainSparseMatrix gfg = obtainSparseMatrix gfg').
Proof.
  intros Hp. rewrite !obtainSparseMatrix_unfold.
  rewrite (max_index_permutation (Machine.to_size_t ∘ get0) _ _ Hp).
  rewrite (max_index_permutation (Machine.to_size_t ∘ get1) _ _ Hp).
  assert (triplet_of <$> sparseJacobian gfg ≡ₚ
          triplet_of <$> sparseJacobian gfg') as Hts by by rewrite Hp.
  split.
  - by apply setFromTriplets_permutation.
  - intros Hassoc Hcomm. by apply setFromTriplets_permutation_exact.
Qed.

End AssemblyTheorems.

(** ** Instances of the assembly *)

Example twice_sums :
  (λ Ab, coeff Ab 0 0) <$> obtainSparseMatrix twice = Some 5%float.
Proof. reflexivity. Qed.

Lemma assembled_coefficients_witness :
  fits_int (sparseJacobian twice) ∧
  ∃ Ab, obtainSparseMatrix twice = Some Ab ∧
        (∀ i j, coeff Ab i j = sum_in_order (targeting i j (sparseJacobian twice))) ∧
        (∀ i j, targeting i j (sparseJacobian twice) = [] -> coeff Ab i j = s_zero).
Proof. split; [fits|]. apply (assembled_coefficients twice). fits. Defined.

Example large_small_large_coeff :
  (λ Ab, coeff Ab 0 0) <$> obtainSparseMatrix large_small_large
  = Some 0%float.
Proof. reflexivity. Qed.

Example large_large_small_coeff :
  (λ Ab, coeff Ab 0 0) <$> obtainSparseMatrix large_large_small
  = Some 1%float.
Proof. reflexivity. Qed.

(** C8, counterexample. One sequence is a permutation of the other, and the
    assembled matrices differ: in [double] the first sum rounds to [0] and
    the second is [1]. *)
Lemma assembly_order_rounds :
  sparseJacobian large_small_large ≡ₚ sparseJacobian large_large_small ∧
  obtainSparseMatrix large_small_large ≠ obtainSparseMatrix large_large_small.
Proof.
  split.
  - apply perm_skip, perm_swap.
  - intros Heq.
    apply (f_equal (fmap (λ Ab, PrimFloat.eqb (coeff Ab 0 0) 0))) in Heq.
    vm_compute in Heq. discriminate.
Qed.

Lemma assembly_order_witness :
  sparseJacobian exact_one ≡ₚ sparseJacobian exact_other ∧
  obtainSparseMatrix exact_one = obtainSparseMatrix exact_other.
Proof.
  assert (sparseJacobian exact_one ≡ₚ sparseJacobian exact_other) as Hp
    by apply perm_skip, perm_swap.
  split; [exact Hp|].
  apply (assembly_order exact_one exact_other Hp).
  - intros x y z. simpl. lia.
  - intros x y. simpl. lia.
Defined.


(** Past the [int] range the narrowed row index is negative and the check
    of [setFromTriplets] fails. *)
Example past_int_fails : obtainSparseMatrix past_int = None.
Proof. reflexivity. Qed.

(** ** The matrix operations of the templates *)
Section MatrixOperations.
Context {V : Type} `{Scalar V}.
Implicit Types (m a b p : SpMat V).

Lemma block_lookup m startRow startCol blockRows blockCols A i j :
  block m startRow startCol blockRows blockCols = Some A ->
  rows A = blockRows ∧ cols A = blockCols ∧
  coeffs A !! (i, j) =
    if decide (0 ≤ i < blockRows ∧ 0 ≤ j < blockCols)
    then coeffs m !! (startRow + i, startCol + j)
    else None.
Proof.
  unfold block. case_decide as Hrange; [|done]. intros [= <-]. simpl.
  split; [done|]. split; [done|].
  replace (i, j) with (shift startRow startCol (startRow + i, startCol + j))
    by (unfold shift; simpl; f_equal; lia).
  rewrite lookup_kmap by apply _. rewrite map_lookup_filter.
  destruct (coeffs m !! (startRow + i, startCol + j)) as [x|]; simpl.
  - case_guard as Hin; simpl in *; case_decide; try done; lia.
  - by case_decide.
Qed.

Lemma column_lookup m A j i i' :
  column m j = Some A ->
  rows A = rows m ∧ cols A = 1 ∧
  coeffs A !! (i, i') =
    if decide (0 ≤ i < rows m ∧ i' = 0) then coeffs m !! (i, j) else None.
Proof.
  unfold column. case_decide as Hj; [|done]. intros Hblock.
  destruct (block_lookup _ _ _ _ _ _ i i' Hblock) as (Hr & Hc & Hl).
  split; [done|]. split; [done|]. rewrite Hl.
  destruct (decide (0 ≤ i < rows m ∧ i' = 0)) as [[? ->]|Hne].
  - rewrite decide_True by lia. by rewrite Z.add_0_l, Z.add_0_r.
  - rewrite decide_False; [done|lia].
Qed.

Lemma transpose_lookup m i j :
  coeffs (transpose m) !! (i, j) = coeffs m !! (j, i).
Proof.
  unfold transpose. simpl. change (i, j) with (prod_swap (j, i)).
  apply (lookup_kmap (M2:=gmap (Z * Z))), _.
Qed.

Lemma NoDup_omap_keys {A B} (g : A -> option (A * B)) (l : list A) :
  (∀ x y, g x = Some y -> y.1 = x) -> NoDup l -> NoDup (omap g l).*1.
Proof.
  intros Hg. induction 1 as [|x l Hx _ IH]; simpl; [constructor|].
  destruct (g x) as [y|] eqn:Hy; [|done]. simpl.
  constructor; [|done].
  rewrite (Hg _ _ Hy). intros Hin.
  apply list_elem_of_fmap in Hin as (y' & Heq & Hin).
  apply list_elem_of_omap in Hin as (x' & Hx' & Hy').
  apply Hx. by rewrite Heq, (Hg _ _ Hy').
Qed.

Lemma coordinates_elem (r c : Z) (ij : Z * Z) :
  ij ∈ (i ← seqZ 0 r; j ← seqZ 0 c; [(i, j)]) ↔ 0 ≤ ij.1 < r ∧ 0 ≤ ij.2 < c.
Proof.
  destruct ij as [i j]. simpl. rewrite list_elem_of_bind. split.
  - intros (i' & Hin & Hi). apply list_elem_of_bind in Hin as (j' & Hin & Hj).
    apply list_elem_of_singleton in Hin as [= -> ->].
    apply elem_of_seqZ in Hi, Hj. lia.
  - intros [Hi Hj]. exists i. split; [|apply elem_of_seqZ; lia].
    apply list_elem_of_bind. exists j.
    split; [apply list_elem_of_singleton; done|apply elem_of_seqZ; lia].
Qed.

Lemma coordinates_NoDup (r c : Z) :
  NoDup (i ← seqZ 0 r; j ← seqZ 0 c; [(i, j)]).
Proof.
  apply NoDup_bind; [| |apply NoDup_seqZ].
  - intros i i' [i0 j0] _ _ Hin Hin'.
    apply list_elem_of_bind in Hin as (j & Hin & _).
    apply list_elem_of_bind in Hin' as (j' & Hin' & _).
    apply list_elem_of_singleton in Hin, Hin'. congruence.
  - intros i _. apply NoDup_bind; [| |apply NoDup_seqZ].
    + intros j j' [i0 j0] _ _ Hin Hin'.
      apply list_elem_of_singleton in Hin, Hin'. congruence.
    + intros j _. apply NoDup_singleton.
Qed.

(** A coefficient of the product is the in-order sum of the products of the
    coefficients stored in row [i] of [a] and column [j] of [b]. *)
Lemma product_lookup a b p i j :
  product a b = Some p ->
  rows p = rows a ∧ cols p = cols b ∧
  coeffs p !! (i, j) =
    if decide (0 ≤ i < rows a ∧ 0 ≤ j < cols b)
    then match terms a b i j with
         | [] => None
         | vs => Some (sum_in_order vs)
         end
    else None.
Proof.
  unfold product. case_decide as Hinner; [|done]. intros [= <-]. simpl.
  split; [done|]. split; [done|].
  set (g := λ ij : Z * Z, match terms a b ij.1 ij.2 with
                          | [] => None
                          | vs => Some (ij, sum_in_order vs)
                          end).
  assert (∀ x y, g x = Some y -> y.1 = x) as Hg.
  { intros x y. unfold g. destruct (terms a b x.1 x.2); [done|].
    by intros [= <-]. }
  pose proof (NoDup_omap_keys g _ Hg (coordinates_NoDup (rows a) (cols b)))
    as Hnodup.
  destruct (decide (0 ≤ i < rows a ∧ 0 ≤ j < cols b)) as [Hin|Hout].
  - destruct (terms a b i j) as [|v vs] eqn:Hterms.
    + apply not_elem_of_list_to_map. intros Hk.
      apply list_elem_of_fmap in Hk as (y & Hy & Hk).
      apply list_elem_of_omap in Hk as (x & _ & Hx).
      pose proof (Hg _ _ Hx) as Hyx. rewrite <- Hy in Hyx. subst x.
      unfold g in Hx. simpl in Hx. by rewrite Hterms in Hx.
    + apply elem_of_list_to_map; [done|].
      apply list_elem_of_omap. exists (i, j).
      split; [by apply coordinates_elem|].
      unfold g. simpl. by rewrite Hterms.
  - apply not_elem_of_list_to_map. intros Hk.
    apply list_elem_of_fmap in Hk as (y & Hy & Hk).
    apply list_elem_of_omap in Hk as (x & Hx' & Hx).
    pose proof (Hg _ _ Hx) as Hyx. rewrite <- Hy in Hyx. subst x.
    apply coordinates_elem in Hx'. simpl in Hx'. lia.
Qed.

End MatrixOperations.

(** ** The two templates *)
Section Templates.
Context {V : Type} `{Scalar V}.
Variable kernel : EigenSolverType -> SpMat V -> SpMat V -> list V.

Lemma bind_lift_Some {A B} (a : A) (k : A -> Run V B) :
  bind (lift (Some a)) k = k a.
Proof. unfold bind, lift, ret. by destruct (k a) as [[b log]|]. Qed.

(** On a matrix with at least one column both templates split off the block
    of all columns but the last and the last column. *)
Lemma split_last_column (Ab : SpMat V) :
  0 ≤ rows Ab < 2 ^ 63 -> 1 ≤ cols Ab < 2 ^ 63 ->
  ∃ A b,
    block Ab 0 0 (Machine.to_Index (Machine.of_Index (rows Ab)))
          (Machine.to_Index (Machine.size_sub (Machine.of_Index (cols Ab)) 1))
      = Some A ∧
    column Ab (Machine.to_Index (Machine.size_sub (Machine.of_Index (cols Ab)) 1))
      = Some b ∧
    block Ab 0 0 (rows Ab) (cols Ab - 1) = Some A ∧
    column Ab (cols Ab - 1) = Some b.
Proof.
  intros Hr Hc.
  rewrite MachineFacts.to_Index_of_Index, MachineFacts.to_Index_pred by done.
  unfold column, block.
  rewrite (decide_True (P := 0 ≤ cols Ab - 1 < cols Ab)) by lia.
  rewrite !decide_True by lia.
  by eexists _, _.
Qed.

(** [solveQR] hands the kernel the block [A] and the column [b], once, with
    the solver type of the template. *)
Lemma solveQR_call o (Ab : SpMat V) :
  0 ≤ rows Ab < 2 ^ 63 -> 1 ≤ cols Ab < 2 ^ 63 ->
  ∃ A b,
    block Ab 0 0 (rows Ab) (cols Ab - 1) = Some A ∧
    column Ab (cols Ab - 1) = Some b ∧
    solveQR kernel (SparseQR o) Ab
      = Some (kernel (SparseQR o) A b, [mkCall (SparseQR o) A b]).
Proof.
  intros Hr Hc.
  destruct (split_last_column Ab Hr Hc) as (A & b & HA & Hb & HA' & Hb').
  exists A, b. split; [done|]. split; [done|].
  unfold solveQR. rewrite HA, Hb, !bind_lift_Some.
  destruct (block_lookup _ _ _ _ _ _ 0 0 HA') as (HrA & _).
  destruct (column_lookup _ _ _ 0 0 Hb') as (Hrb & _).
  unfold solve. by rewrite bool_decide_eq_true_2 by congruence.
Qed.

(** [solveCholesky] hands the kernel the products [At * A] and [At * b],
    once, with the solver type of the template. *)
Lemma solveCholesky_call o (Ab : SpMat V) :
  0 ≤ rows Ab < 2 ^ 63 -> 1 ≤ cols Ab < 2 ^ 63 ->
  ∃ A b AtA Atb,
    block Ab 0 0 (rows Ab) (cols Ab - 1) = Some A ∧
    column Ab (cols Ab - 1) = Some b ∧
    product (transpose A) A = Some AtA ∧
    product (transpose A) b = Some Atb ∧
    solveCholesky kernel (SimplicialLDLT_Lower o) Ab
      = Some (kernel (SimplicialLDLT_Lower o) AtA Atb,
              [mkCall (SimplicialLDLT_Lower o) AtA Atb]).
Proof.
  intros Hr Hc.
  destruct (split_last_column Ab Hr Hc) as (A & b & HA & Hb & HA' & Hb').
  destruct (block_lookup _ _ _ _ _ _ 0 0 HA') as (HrA & HcA & _).
  destruct (column_lookup _ _ _ 0 0 Hb') as (Hrb & Hcb & _).
  assert (∃ AtA, product (transpose A) A = Some AtA) as (AtA & HAtA).
  { unfold product. rewrite decide_True by done. by eexists. }
  assert (∃ Atb, product (transpose A) b = Some Atb) as (Atb & HAtb).
  { unfold product. rewrite decide_True by (simpl; congruence). by eexists. }
  exists A, b, AtA, Atb. repeat (split; [done|]).
  unfold solveCholesky. rewrite HA, Hb, !bind_lift_Some.
  rewrite HAtA, bind_lift_Some, HAtb, bind_lift_Some.
  destruct (product_lookup _ _ _ 0 0 HAtA) as (H1 & H2 & _).
  destruct (product_lookup _ _ _ 0 0 HAtb) as (H3 & _).
  unfold solve.
  rewrite !bool_decide_eq_true_2; [done|..]; simpl in *; congruence.
Qed.

(** The ordering changes the solver type and nothing else: whatever the
    ordering, a template hands Eigen the same matrix and right-hand side. *)
Lemma solveQR_same_system o o' (Ab : SpMat V) :
  0 ≤ rows Ab < 2 ^ 63 -> 1 ≤ cols Ab < 2 ^ 63 ->
  ∃ A b,
    solveQR kernel (SparseQR o) Ab
      = Some (kernel (SparseQR o) A b, [mkCall (SparseQR o) A b]) ∧
    solveQR kernel (SparseQR o') Ab
      = Some (kernel (SparseQR o') A b, [mkCall (SparseQR o') A b]).
Proof.
  intros Hr Hc.
  destruct (solveQR_call o Ab Hr Hc) as (A & b & HA & Hb & Hcall).
  destruct (solveQR_call o' Ab Hr Hc) as (A' & b' & HA' & Hb' & Hcall').
  exists A, b. split; [done|].
  rewrite HA in HA'. rewrite Hb in Hb'.
  injection HA' as <-. injection Hb' as <-. done.
Qed.

Lemma solveCholesky_same_system o o' (Ab : SpMat V) :
  0 ≤ rows Ab < 2 ^ 63 -> 1 ≤ cols Ab < 2 ^ 63 ->
  ∃ AtA Atb,
    solveCholesky kernel (SimplicialLDLT_Lower o) Ab
      = Some (kernel (SimplicialLDLT_Lower o) AtA Atb,
              [mkCall (SimplicialLDLT_Lower o) AtA Atb]) ∧
    solveCholesky kernel (SimplicialLDLT_Lower o') Ab
      = Some (kernel (SimplicialLDLT_Lower o') AtA Atb,
              [mkCall (SimplicialLDLT_Lower o') AtA Atb]).
Proof.
  intros Hr Hc.
  destruct (solveCholesky_call o Ab Hr Hc)
    as (A & b & AtA & Atb & HA & Hb & HN & Hc1 & Hcall).
  destruct (solveCholesky_call o' Ab Hr Hc)
    as (A' & b' & AtA' & Atb' & HA' & Hb' & HN' & Hc1' & Hcall').
  exists AtA, Atb. split; [done|].
  rewrite HA in HA'. rewrite Hb in Hb'.
  injection HA' as <-. injection Hb' as <-.
  rewrite HN in HN'. rewrite Hc1 in Hc1'.
  injection HN' as <-. injection Hc1' as <-. done.
Qed.

End Templates.

(** ** The entry points *)

Section EntryPoints.
Context {V : Type} `{Scalar V} {KeyDimMap VectorValues : Type}.
Variable mkVectorValues : list V -> KeyDimMap -> VectorValues.
Variable kernel : EigenSolverType -> SpMat V -> SpMat V -> list V.
Implicit Types (gfg : GaussianFactorGraph V KeyDimMap).

(** Both entry points, with the template they instantiate as a parameter. *)
Lemma optimizeEigenQR_dispatch gfg orderingType :
  optimizeEigenQR mkVectorValues kernel gfg orderingType =
  let* Ab := lift (obtainSparseMatrix gfg) in
  let* x := match ordering_of orderingType with
            | Some o => solveQR kernel (SparseQR o) Ab
            | None => ret []
            end in
  ret (mkVectorValues x (getKeyDimMap gfg)).
Proof.
  unfold optimizeEigenQR, ordering_of.
  destruct (String.eqb_spec orderingType "AMD") as [->|_]; [done|].
  destruct (String.eqb_spec orderingType "COLAMD") as [->|_]; [done|].
  destruct (String.eqb_spec orderingType "NATURAL") as [->|_]; [done|].
  by destruct (String.eqb_spec orderingType "METIS") as [->|_].
Qed.

Lemma optimizeEigenCholesky_dispatch gfg orderingType :
  optimizeEigenCholesky mkVectorValues kernel gfg orderingType =
  let* Ab := lift (obtainSparseMatrix gfg) in
  let* x := match ordering_of orderingType with
            | Some o => solveCholesky kernel (SimplicialLDLT_Lower o) Ab
            | None => ret []
            end in
  ret (mkVectorValues x (getKeyDimMap gfg)).
Proof.
  unfold optimizeEigenCholesky, ordering_of.
  destruct (String.eqb_spec orderingType "AMD") as [->|_]; [done|].
  destruct (String.eqb_spec orderingType "COLAMD") as [->|_]; [done|].
  destruct (String.eqb_spec orderingType "NATURAL") as [->|_]; [done|].
  by destruct (String.eqb_spec orderingType "METIS") as [->|_].
Qed.

Lemma ordering_of_unrecognized orderingType :
  orderingType ≠ "NATURAL"%string -> orderingType ≠ "AMD"%string ->
  orderingType ≠ "COLAMD"%string -> orderingType ≠ "METIS"%string ->
  ordering_of orderingType = None.
Proof.
  intros Hn Ha Hc Hm. unfold ordering_of.
  apply String.eqb_neq in Hn, Ha, Hc, Hm.
  by rewrite Hn, Ha, Hc, Hm.
Qed.

(** C2. For every ordering string other than ["NATURAL"], ["AMD"],
    ["COLAMD"] and ["METIS"] (compared as they are written, capitals
    included), both entry points ask Eigen for no factorization, under no
    ordering at all, and build their result from the solution vector as it
    was default-constructed, the empty vector: after the assembly nothing is
    computed; on entries that fit in an [int] the assembly succeeds and this
    is what the caller receives. *)
Theorem unrecognized_ordering gfg orderingType :
  orderingType ≠ "NATURAL"%string -> orderingType ≠ "AMD"%string ->
  orderingType ≠ "COLAMD"%string -> orderingType ≠ "METIS"%string ->
  (optimizeEigenQR mkVectorValues kernel gfg orderingType
     = (λ _, (mkVectorValues [] (getKeyDimMap gfg), []))
         <$> obtainSparseMatrix gfg ∧
   optimizeEigenCholesky mkVectorValues kernel gfg orderingType
     = (λ _, (mkVectorValues [] (getKeyDimMap gfg), []))
         <$> obtainSparseMatrix gfg) ∧
  (fits_int (sparseJacobian gfg) ->
   optimizeEigenQR mkVectorValues kernel gfg orderingType
     = Some (mkVectorValues [] (getKeyDimMap gfg), []) ∧
   optimizeEigenCholesky mkVectorValues kernel gfg orderingType
     = Some (mkVectorValues [] (getKeyDimMap gfg), [])).
Proof.
  intros Hn Ha Hc Hm.
  rewrite optimizeEigenQR_dispatch, optimizeEigenCholesky_dispatch.
  rewrite ordering_of_unrecognized by done.
  split.
  - by destruct (obtainSparseMatrix gfg).
  - intros Hfit. by rewrite obtainSparseMatrix_fits.
Qed.

(** The two templates on the matrix assembled from no entry. *)
Lemma solveQR_degenerate T :
  solveQR kernel T (SpMat_new 1 1) =
  solve kernel T (SpMat_new 1 0) (SpMat_new 1 1).
Proof. by destruct T. Qed.

Lemma solveCholesky_degenerate T :
  solveCholesky kernel T (SpMat_new 1 1) =
  solve kernel T (SpMat_new 0 0) (SpMat_new 0 1).
Proof. by destruct T. Qed.

End EntryPoints.

(** ** Instances of the entry points *)

Example lowercase_name :
  optimizeEigenQR flat_values zero_kernel two_factors "amd" = Some ([], []).
Proof. reflexivity. Qed.

(** On the system of the two factors the QR template hands Eigen
    [A = [[1]; [1]]] and [b = [2; 4]], and the Cholesky template the normal
    equations [N = [2]] and [c = [6]]. *)
Example two_factors_qr :
  optimizeEigenQR flat_values zero_kernel two_factors "COLAMD" =
  Some ([0%float],
        [mkCall (SparseQR COLAMDOrdering)
                (mkSpMat 2 1 {[ (0, 0) := 1%float; (1, 0) := 1%float ]})
                (mkSpMat 2 1 {[ (0, 0) := 2%float; (1, 0) := 4%float ]})]).
Proof. reflexivity. Qed.

Example two_factors_cholesky :
  optimizeEigenCholesky flat_values zero_kernel two_factors "NATURAL" =
  Some ([0%float],
        [mkCall (SimplicialLDLT_Lower NaturalOrdering)
                (mkSpMat 1 1 {[ (0, 0) := 2%float ]})
                (mkSpMat 1 1 {[ (0, 0) := 6%float ]})]).
Proof. reflexivity. Qed.

Lemma unrecognized_ordering_witness :
  "BOGUS"%string ≠ "NATURAL"%string ∧ "BOGUS"%string ≠ "AMD"%string ∧
  "BOGUS"%string ≠ "COLAMD"%string ∧ "BOGUS"%string ≠ "METIS"%string ∧
  optimizeEigenQR flat_values zero_kernel two_factors "BOGUS"
    = Some (flat_values [] (getKeyDimMap two_factors), []) ∧
  optimizeEigenCholesky flat_values zero_kernel two_factors "BOGUS"
    = Some (flat_values [] (getKeyDimMap two_factors), []).
Proof.
  assert (fits_int (sparseJacobian two_factors)) as Hfit by fits.
  repeat (split; [done|]).
  by apply (unrecognized_ordering flat_values zero_kernel two_factors "BOGUS").
Defined.

(** ** More on the assembled matrix *)
Section AssemblyInvariants.
Context {V : Type} `{Scalar V} {KeyDimMap : Type}.
Implicit Types (gfg : GaussianFactorGraph V KeyDimMap).
Implicit Types (es : list (SparseEntry V)) (ts : list (Triplet V)).

Lemma values_at_elem (k : Z * Z) ts :
  values_at k ts ≠ [] -> ∃ t, t ∈ ts ∧ (row t, col t) = k.
Proof.
  unfold values_at. intros Hne.
  destruct (filter (λ t, (row t, col t) = k) ts) as [|t l] eqn:Hf; [done|].
  assert (t ∈ filter (λ t, (row t, col t) = k) ts) as Hin
    by (rewrite Hf; apply list_elem_of_here).
  apply list_elem_of_filter in Hin as [Hk Hin]. by exists t.
Qed.

Lemma wrap_signed_range z : - 2 ^ 63 ≤ Machine.wrap_signed 64 z < 2 ^ 63.
Proof.
  unfold Machine.wrap_signed.
  pose proof (Z.mod_pos_bound (z + 2 ^ (64 - 1)) (2 ^ 64)). lia.
Qed.

Lemma size_accumulate (d : gmap (Z * Z) V) ts :
  (size (foldl accumulate d ts) ≤ size d + length ts)%nat.
Proof.
  revert d. induction ts as [|t ts IH]; intros d; simpl; [lia|].
  specialize (IH (accumulate d t)).
  assert (size (accumulate d t) ≤ S (size d))%nat; [|lia].
  unfold accumulate. rewrite map_size_insert.
  destruct (d !! (row t, col t)); simpl; lia.
Qed.

Lemma max_index_snoc (f : SparseEntry V -> N) es e :
  max_index f (es ++ [e]) = N.max (max_index f es) (f e).
Proof.
  induction es as [|e' es IH]; simpl; [lia|]. rewrite IH. lia.
Qed.

(** Whenever the assembly succeeds, the matrix has at least one row and one
    column, fewer than [2^63] of each, and every coefficient it stores lies
    inside its shape: this is what the two templates need for their
    [cols - 1]. *)
Theorem assembled_inside gfg Ab :
  obtainSparseMatrix gfg = Some Ab ->
  1 ≤ rows Ab < 2 ^ 63 ∧ 1 ≤ cols Ab < 2 ^ 63 ∧
  ∀ i j, is_Some (coeffs Ab !! (i, j)) -> 0 ≤ i < rows Ab ∧ 0 ≤ j < cols Ab.
Proof.
  rewrite obtainSparseMatrix_unfold. unfold setFromTriplets.
  destruct (forallb _ _) eqn:Hall; [|done]. intros [= <-]. simpl.
  rewrite forallb_forall in Hall.
  assert (∀ i j, is_Some (foldl accumulate ∅
                            (triplet_of <$> sparseJacobian gfg) !! (i, j)) ->
                 0 ≤ i < Machine.to_Index (Machine.size_add
                   (max_index (Machine.to_size_t ∘ get0) (sparseJacobian gfg)) 1) ∧
                 0 ≤ j < Machine.to_Index (Machine.size_add
                   (max_index (Machine.to_size_t ∘ get1) (sparseJacobian gfg)) 1))
    as Hin.
  { intros i j. rewrite foldl_accumulate_lookup, lookup_empty.
    rewrite accumulated_is_Some. intros Hne.
    apply values_at_elem in Hne as (t & Ht & [= <- <-]).
    apply list_elem_of_In, Hall in Ht. unfold inside in Ht.
    apply bool_decide_eq_true in Ht. simpl in Ht. lia. }
  pose proof (wrap_signed_range (Z.of_N (Machine.size_add
    (max_index (Machine.to_size_t ∘ get0) (sparseJacobian gfg)) 1))) as Hr.
  pose proof (wrap_signed_range (Z.of_N (Machine.size_add
    (max_index (Machine.to_size_t ∘ get1) (sparseJacobian gfg)) 1))) as Hc.
  fold (Machine.to_Index (Machine.size_add
    (max_index (Machine.to_size_t ∘ get0) (sparseJacobian gfg)) 1)) in Hr.
  fold (Machine.to_Index (Machine.size_add
    (max_index (Machine.to_size_t ∘ get1) (sparseJacobian gfg)) 1)) in Hc.
  destruct (sparseJacobian gfg) as [|e es] eqn:Hes.
  - split; [by vm_compute|]. split; [by vm_compute|].
    intros i j [x Hx]. simpl in Hx. by rewrite lookup_empty in Hx.
  - assert (is_Some (foldl accumulate ∅ (triplet_of <$> e :: es)
                       !! (row (triplet_of e), col (triplet_of e)))) as Hsome.
    { rewrite foldl_accumulate_lookup, lookup_empty, accumulated_is_Some.
      unfold values_at. rewrite fmap_cons, filter_cons, decide_True by done.
      done. }
    apply Hin in Hsome. split; [lia|]. split; [lia|]. exact Hin.
Qed.

(** On entries that fit in an [int], a coordinate is stored exactly when some
    entry targets it, whatever the values add up to (a sum that cancels is
    stored as a zero), and the matrix stores no more coefficients than there
    are entries. *)
Theorem assembled_pattern gfg :
  fits_int (sparseJacobian gfg) ->
  ∃ Ab, obtainSparseMatrix gfg = Some Ab ∧
        (∀ i j, is_Some (coeffs Ab !! (i, j)) ↔
                targeting i j (sparseJacobian gfg) ≠ []) ∧
        (size (coeffs Ab) ≤ length (sparseJacobian gfg))%nat.
Proof.
  intros Hfit. eexists. split; [by apply obtainSparseMatrix_fits|]. simpl.
  split.
  - intros i j.
    rewrite foldl_accumulate_lookup, lookup_empty, accumulated_is_Some.
    by rewrite values_at_triplets.
  - pose proof (size_accumulate ∅ (triplet_of <$> sparseJacobian gfg)) as Hs.
    rewrite map_size_empty, length_fmap in Hs. lia.
Qed.

(** One more entry at the end of the sequence: its value is added to what its
    coordinate held (or stored, when the coordinate held nothing), every
    other coefficient stays as it was, and the shape grows just enough to
    hold the coordinate. *)
Theorem assembled_append gfg gfg' e :
  sparseJacobian gfg' = sparseJacobian gfg ++ [e] ->
  fits_int (sparseJacobian gfg') ->
  ∃ Ab Ab',
    obtainSparseMatrix gfg = Some Ab ∧ obtainSparseMatrix gfg' = Some Ab' ∧
    rows Ab' = Z.max (rows Ab) (Z.of_N (get0 e) + 1) ∧
    cols Ab' = Z.max (cols Ab) (Z.of_N (get1 e) + 1) ∧
    coeffs Ab' !! (Z.of_N (get0 e), Z.of_N (get1 e))
      = Some match coeffs Ab !! (Z.of_N (get0 e), Z.of_N (get1 e)) with
             | Some old => s_add old (get2 e)
             | None => get2 e
             end ∧
    ∀ k, k ≠ (Z.of_N (get0 e), Z.of_N (get1 e)) ->
         coeffs Ab' !! k = coeffs Ab !! k.
Proof.
  intros Hes Hfit'.
  assert (fits_int (sparseJacobian gfg)) as Hfit.
  { unfold fits_int in *. rewrite Hes in Hfit'.
    by apply Forall_app in Hfit' as [? _]. }
  assert (Z.of_N (get0 e) ≤ Machine.INT_MAX ∧
          Z.of_N (get1 e) ≤ Machine.INT_MAX) as [Hr Hc].
  { unfold fits_int in Hfit'. rewrite Hes in Hfit'.
    apply Forall_app in Hfit' as [_ He]. apply Forall_inv in He. exact He. }
  eexists _, _.
  split; [by apply obtainSparseMatrix_fits|].
  split; [by apply obtainSparseMatrix_fits|]. simpl.
  rewrite Hes, !max_index_snoc, fmap_app, foldl_app.
  change (foldl accumulate ?d (triplet_of <$> [e]))
    with (accumulate d (triplet_of e)).
  split; [lia|]. split; [lia|].
  assert ((row (triplet_of e), col (triplet_of e))
          = (Z.of_N (get0 e), Z.of_N (get1 e))) as Hk.
  { unfold triplet_of. simpl.
    by rewrite !MachineFacts.to_size_t_small, !MachineFacts.to_int_small. }
  split.
  - by rewrite accumulate_lookup, decide_True by exact Hk.
  - intros k Hne. rewrite accumulate_lookup, decide_False; [done|].
    by rewrite Hk.
Qed.

End AssemblyInvariants.

(** ** What the templates hand to Eigen *)
Section TemplateSystems.
Context {V : Type} `{Scalar V}.
Variable kernel : EigenSolverType -> SpMat V -> SpMat V -> list V.

Lemma omap_ext_elem {A B} (f g : A -> option B) (l : list A) :
  (∀ x, x ∈ l -> f x = g x) -> omap f l = omap g l.
Proof.
  intros Hfg. apply list_omap_ext, Forall_Forall2_diag.
  by apply Forall_forall.
Qed.

(** The terms of [At * A] and of [At * b] are products of two columns of the
    augmented matrix. *)
Lemma terms_normal (Ab A : SpMat V) (i j : Z) :
  block Ab 0 0 (rows Ab) (cols Ab - 1) = Some A ->
  0 ≤ i < cols Ab - 1 -> 0 ≤ j < cols Ab - 1 ->
  terms (transpose A) A i j = column_products Ab i j.
Proof.
  intros HA Hi Hj. unfold terms, column_products.
  destruct (block_lookup _ _ _ _ _ _ 0 0 HA) as (HrA & HcA & _).
  change (cols (transpose A)) with (rows A). rewrite HrA.
  apply omap_ext_elem. intros k Hk. apply elem_of_seqZ in Hk.
  rewrite transpose_lookup.
  destruct (block_lookup _ _ _ _ _ _ k i HA) as (_ & _ & ->).
  destruct (block_lookup _ _ _ _ _ _ k j HA) as (_ & _ & ->).
  rewrite !decide_True by lia. by rewrite !Z.add_0_l.
Qed.

Lemma terms_rhs (Ab A b : SpMat V) (i : Z) :
  block Ab 0 0 (rows Ab) (cols Ab - 1) = Some A ->
  column Ab (cols Ab - 1) = Some b ->
  0 ≤ i < cols Ab - 1 ->
  terms (transpose A) b i 0 = column_products Ab i (cols Ab - 1).
Proof.
  intros HA Hb Hi. unfold terms, column_products.
  destruct (block_lookup _ _ _ _ _ _ 0 0 HA) as (HrA & HcA & _).
  change (cols (transpose A)) with (rows A). rewrite HrA.
  apply omap_ext_elem. intros k Hk. apply elem_of_seqZ in Hk.
  rewrite transpose_lookup.
  destruct (block_lookup _ _ _ _ _ _ k i HA) as (_ & _ & ->).
  destruct (column_lookup _ _ _ k 0 Hb) as (_ & _ & ->).
  rewrite !decide_True by lia. by rewrite !Z.add_0_l.
Qed.

(** On a matrix with at least one column, [solveQR] asks Eigen for one
    factorization, with the solver type of the template, of the matrix [A]
    that holds all columns of [Ab] but the last, and solves for the
    one-column matrix [b] that holds the last column; what it returns is
    what Eigen returns. *)
Theorem solveQR_splits o (Ab : SpMat V) :
  0 ≤ rows Ab < 2 ^ 63 -> 1 ≤ cols Ab < 2 ^ 63 ->
  ∃ A b,
    solveQR kernel (SparseQR o) Ab
      = Some (kernel (SparseQR o) A b, [mkCall (SparseQR o) A b]) ∧
    rows A = rows Ab ∧ cols A = cols Ab - 1 ∧
    rows b = rows Ab ∧ cols b = 1 ∧
    (∀ i j, coeffs A !! (i, j) =
            if decide (0 ≤ i < rows Ab ∧ 0 ≤ j < cols Ab - 1)
            then coeffs Ab !! (i, j) else None) ∧
    (∀ i j, coeffs b !! (i, j) =
            if decide (0 ≤ i < rows Ab ∧ j = 0)
            then coeffs Ab !! (i, cols Ab - 1) else None).
Proof.
  intros Hr Hc.
  destruct (solveQR_call kernel o Ab Hr Hc) as (A & b & HA & Hb & Hcall).
  exists A, b. split; [done|].
  destruct (block_lookup _ _ _ _ _ _ 0 0 HA) as (HrA & HcA & _).
  destruct (column_lookup _ _ _ 0 0 Hb) as (Hrb & Hcb & _).
  repeat (split; [done|]). split.
  - intros i j. destruct (block_lookup _ _ _ _ _ _ i j HA) as (_ & _ & ->).
    by rewrite !Z.add_0_l.
  - intros i j. by destruct (column_lookup _ _ _ i j Hb) as (_ & _ & ->).
Qed.

(** On a matrix with at least one column, [solveCholesky] asks Eigen for one
    factorization, of the square matrix [N] whose coefficient [(i, j)] is the
    in-order sum of the products of columns [i] and [j] of [Ab], and solves
    for the one-column matrix [c] of the products of column [i] with the
    last column of [Ab]. *)
Theorem solveCholesky_normal_equations o (Ab : SpMat V) :
  0 ≤ rows Ab < 2 ^ 63 -> 1 ≤ cols Ab < 2 ^ 63 ->
  ∃ N c,
    solveCholesky kernel (SimplicialLDLT_Lower o) Ab
      = Some (kernel (SimplicialLDLT_Lower o) N c,
              [mkCall (SimplicialLDLT_Lower o) N c]) ∧
    rows N = cols Ab - 1 ∧ cols N = cols Ab - 1 ∧
    rows c = cols Ab - 1 ∧ cols c = 1 ∧
    (∀ i j, 0 ≤ i < cols Ab - 1 -> 0 ≤ j < cols Ab - 1 ->
            coeff N i j = sum_in_order (column_products Ab i j)) ∧
    (∀ i, 0 ≤ i < cols Ab - 1 ->
          coeff c i 0 = sum_in_order (column_products Ab i (cols Ab - 1))).
Proof.
  intros Hr Hc.
  destruct (solveCholesky_call kernel o Ab Hr Hc)
    as (A & b & N & c & HA & Hb & HN & Hc' & Hcall).
  exists N, c. split; [done|].
  destruct (block_lookup _ _ _ _ _ _ 0 0 HA) as (HrA & HcA & _).
  destruct (column_lookup _ _ _ 0 0 Hb) as (Hrb & Hcb & _).
  destruct (product_lookup _ _ _ 0 0 HN) as (HrN & HcN & _).
  destruct (product_lookup _ _ _ 0 0 Hc') as (Hrc & Hcc & _).
  simpl in HrN, Hrc.
  split; [congruence|]. split; [congruence|].
  split; [congruence|]. split; [congruence|]. split.
  - intros i j Hi Hj. unfold coeff.
    destruct (product_lookup _ _ _ i j HN) as (_ & _ & ->).
    rewrite decide_True by (simpl; lia).
    rewrite (terms_normal Ab A i j HA Hi Hj).
    by destruct (column_products Ab i j).
  - intros i Hi. unfold coeff.
    destruct (product_lookup _ _ _ i 0 Hc') as (_ & _ & ->).
    rewrite decide_True by (simpl; lia).
    rewrite (terms_rhs Ab A b i HA Hb Hi).
    by destruct (column_products Ab i (cols Ab - 1)).
Qed.

(** When the multiplication of the scalars is commutative, the matrix
    [solveCholesky] hands to the lower-triangular factorization is symmetric,
    in what it stores and in the values. *)
Theorem normal_matrix_symmetric o (Ab : SpMat V) :
  (∀ x y : V, s_mul x y = s_mul y x) ->
  0 ≤ rows Ab < 2 ^ 63 -> 1 ≤ cols Ab < 2 ^ 63 ->
  ∃ N c,
    solveCholesky kernel (SimplicialLDLT_Lower o) Ab
      = Some (kernel (SimplicialLDLT_Lower o) N c,
              [mkCall (SimplicialLDLT_Lower o) N c]) ∧
    ∀ i j, coeffs N !! (i, j) = coeffs N !! (j, i).
Proof.
  intros Hcomm Hr Hc.
  destruct (solveCholesky_call kernel o Ab Hr Hc)
    as (A & b & N & c & HA & Hb & HN & Hc' & Hcall).
  exists N, c. split; [done|]. intros i j.
  destruct (product_lookup _ _ _ i j HN) as (_ & _ & ->).
  destruct (product_lookup _ _ _ j i HN) as (_ & _ & ->).
  assert (terms (transpose A) A i j = terms (transpose A) A j i) as ->.
  { unfold terms. apply omap_ext_elem. intros k _.
    rewrite !transpose_lookup.
    destruct (coeffs A !! (k, i)), (coeffs A !! (k, j)); simpl; try done.
    by rewrite Hcomm. }
  simpl. destruct (decide (0 ≤ i < cols A ∧ 0 ≤ j < cols A)).
  - by rewrite decide_True by lia.
  - by rewrite decide_False by lia.
Qed.

End TemplateSystems.

(** ** The entry points under a recognized ordering *)
Section RecognizedOrdering.
Context {V : Type} `{Scalar V} {KeyDimMap VectorValues : Type}.
Variable mkVectorValues : list V -> KeyDimMap -> VectorValues.
Variable kernel : EigenSolverType -> SpMat V -> SpMat V -> list V.
Implicit Types (gfg : GaussianFactorGraph V KeyDimMap).

Lemma targeting_inside (i j : Z) (es : list (SparseEntry V)) :
  targeting i j es ≠ [] ->
  0 ≤ i ≤ Z.of_N (max_index get0 es) ∧ 0 ≤ j ≤ Z.of_N (max_index get1 es).
Proof.
  unfold targeting. intros Hne.
  destruct (filter _ es) as [|e l] eqn:Hf; [done|].
  assert (e ∈ filter (λ e, Z.of_N (get0 e) = i ∧ Z.of_N (get1 e) = j) es)
    as Hin by (rewrite Hf; apply list_elem_of_here).
  apply list_elem_of_filter in Hin as [[<- <-] Hin].
  pose proof (max_index_elem get0 es e Hin).
  pose proof (max_index_elem get1 es e Hin). lia.
Qed.

Lemma assembled_lookup gfg :
  fits_int (sparseJacobian gfg) ->
  ∃ Ab, obtainSparseMatrix gfg = Some Ab ∧
        rows Ab = Z.of_N (max_index get0 (sparseJacobian gfg)) + 1 ∧
        cols Ab = Z.of_N (max_index get1 (sparseJacobian gfg)) + 1 ∧
        ∀ i j, coeffs Ab !! (i, j)
               = accumulated None (targeting i j (sparseJacobian gfg)).
Proof.
  intros Hfit. eexists. split; [by apply obtainSparseMatrix_fits|]. simpl.
  split; [done|]. split; [done|]. intros i j.
  by rewrite foldl_accumulate_lookup, lookup_empty, values_at_triplets.
Qed.

Lemma default_accumulated (vs : list V) :
  default s_zero (accumulated None vs) = sum_in_order vs.
Proof. rewrite accumulated_None. by destruct vs. Qed.

(** With entries that fit in an [int] and one of the four ordering names,
    [optimizeEigenQR] asks Eigen for exactly one QR factorization, under the
    ordering the name selects, and builds its result from what Eigen
    returns.  The column with the largest index met, [C], is the right-hand
    side: the factorized matrix has the columns below [C], with the in-order
    sums of the entries as coefficients, and the right-hand side holds the
    sums of the entries of column [C]. *)
Theorem optimizeEigenQR_system gfg orderingType o :
  fits_int (sparseJacobian gfg) ->
  ordering_of orderingType = Some o ->
  ∃ A b,
    optimizeEigenQR mkVectorValues kernel gfg orderingType
      = Some (mkVectorValues (kernel (SparseQR o) A b) (getKeyDimMap gfg),
              [mkCall (SparseQR o) A b]) ∧
    rows A = Z.of_N (max_index get0 (sparseJacobian gfg)) + 1 ∧
    cols A = Z.of_N (max_index get1 (sparseJacobian gfg)) ∧
    rows b = rows A ∧ cols b = 1 ∧
    (∀ i j, j < Z.of_N (max_index get1 (sparseJacobian gfg)) ->
            coeff A i j = sum_in_order (targeting i j (sparseJacobian gfg))) ∧
    (∀ i, coeff b i 0 =
          sum_in_order (targeting i (Z.of_N (max_index get1 (sparseJacobian gfg)))
                                  (sparseJacobian gfg))).
Proof.
  intros Hfit Ho.
  destruct (assembled_lookup gfg Hfit) as (Ab & HAb & Hrows & Hcols & Hlook).
  assert (Z.of_N (max_index get0 (sparseJacobian gfg)) ≤ Machine.INT_MAX ∧
          Z.of_N (max_index get1 (sparseJacobian gfg)) ≤ Machine.INT_MAX)
    as [Hmr Hmc].
  { unfold fits_int in Hfit.
    split; (apply max_index_bound; [unfold Machine.INT_MAX; lia|]);
      (eapply Forall_impl; [exact Hfit|]); by intros e [? ?]. }
  unfold Machine.INT_MAX in Hmr, Hmc.
  assert (0 ≤ rows Ab < 2 ^ 63) as Hr by lia.
  assert (1 ≤ cols Ab < 2 ^ 63) as Hc by lia.
  destruct (solveQR_call kernel o Ab Hr Hc) as (A & b & HA & Hb & Hcall).
  exists A, b.
  destruct (block_lookup _ _ _ _ _ _ 0 0 HA) as (HrA & HcA & _).
  destruct (column_lookup _ _ _ 0 0 Hb) as (Hrb & Hcb & _).
  split.
  { rewrite optimizeEigenQR_dispatch, Ho, HAb, bind_lift_Some, Hcall. done. }
  split; [congruence|]. split; [lia|]. split; [congruence|]. split; [done|].
  split.
  - intros i j Hj. unfold coeff.
    destruct (block_lookup _ _ _ _ _ _ i j HA) as (_ & _ & ->).
    rewrite !Z.add_0_l. case_decide as Hin.
    + by rewrite Hlook, default_accumulated.
    + destruct (targeting i j (sparseJacobian gfg)) eqn:Ht; [done|].
      assert (targeting i j (sparseJacobian gfg) ≠ []) as Hne
        by by rewrite Ht.
      apply targeting_inside in Hne. lia.
  - intros i. unfold coeff.
    destruct (column_lookup _ _ _ i 0 Hb) as (_ & _ & ->).
    rewrite Hcols, Z.add_simpl_r. case_decide as Hin.
    + by rewrite Hlook, default_accumulated.
    + destruct (targeting i _ (sparseJacobian gfg)) eqn:Ht; [done|].
      assert (targeting i (Z.of_N (max_index get1 (sparseJacobian gfg)))
                        (sparseJacobian gfg) ≠ []) as Hne by by rewrite Ht.
      apply targeting_inside in Hne. lia.
Qed.

(** With the same entries and the same ordering name the two entry points
    work on the same split of the assembled matrix: when the QR entry point
    hands Eigen [A] and [b], the Cholesky entry point hands it the products
    [At * A] and [At * b], and each asks for exactly one factorization. *)
Theorem entry_points_same_split gfg orderingType o :
  fits_int (sparseJacobian gfg) ->
  ordering_of orderingType = Some o ->
  ∃ A b N c,
    optimizeEigenQR mkVectorValues kernel gfg orderingType
      = Some (mkVectorValues (kernel (SparseQR o) A b) (getKeyDimMap gfg),
              [mkCall (SparseQR o) A b]) ∧
    optimizeEigenCholesky mkVectorValues kernel gfg orderingType
      = Some (mkVectorValues (kernel (SimplicialLDLT_Lower o) N c)
                             (getKeyDimMap gfg),
              [mkCall (SimplicialLDLT_Lower o) N c]) ∧
    product (transpose A) A = Some N ∧
    product (transpose A) b = Some c.
Proof.
  intros Hfit Ho.
  destruct (assembled_lookup gfg Hfit) as (Ab & HAb & Hrows & Hcols & _).
  assert (Z.of_N (max_index get0 (sparseJacobian gfg)) ≤ Machine.INT_MAX ∧
          Z.of_N (max_index get1 (sparseJacobian gfg)) ≤ Machine.INT_MAX)
    as [Hmr Hmc].
  { unfold fits_int in Hfit.
    split; (apply max_index_bound; [unfold Machine.INT_MAX; lia|]);
      (eapply Forall_impl; [exact Hfit|]); by intros e [? ?]. }
  unfold Machine.INT_MAX in Hmr, Hmc.
  assert (0 ≤ rows Ab < 2 ^ 63) as Hr by lia.
  assert (1 ≤ cols Ab < 2 ^ 63) as Hc by lia.
  destruct (solveQR_call kernel o Ab Hr Hc) as (A & b & HA & Hb & Hqr).
  destruct (solveCholesky_call kernel o Ab Hr Hc)
    as (A' & b' & N & c & HA' & Hb' & HN & Hc' & Hch).
  rewrite HA in HA'. rewrite Hb in Hb'.
  injection HA' as <-. injection Hb' as <-.
  exists A, b, N, c.
  split.
  { by rewrite optimizeEigenQR_dispatch, Ho, HAb, bind_lift_Some, Hqr. }
  split; [|done].
  by rewrite optimizeEigenCholesky_dispatch, Ho, HAb, bind_lift_Some, Hch.
Qed.

End RecognizedOrdering.

(** ** Multiplication of doubles *)

Lemma SF64mul_comm (x y : spec_float) : SF64mul x y = SF64mul y x.
Proof.
  unfold SF64mul, SFmul.
  destruct x as [sx|sx| |sx mx ex], y as [sy|sy| |sy my ey];
    try reflexivity; try (by rewrite xorb_comm).
  by rewrite xorb_comm, Pos.mul_comm, Z.add_comm.
Qed.

Lemma double_mul_comm (x y : float) : PrimFloat.mul x y = PrimFloat.mul y x.
Proof.
  rewrite <- (SF2Prim_Prim2SF (PrimFloat.mul x y)).
  rewrite <- (SF2Prim_Prim2SF (PrimFloat.mul y x)).
  by rewrite !mul_spec, SF64mul_comm.
Qed.

(** ** The shape and the range check *)
Section ShapeAndCheck.
Context {V : Type} `{Scalar V} {KeyDimMap : Type}.
Implicit Types (gfg : GaussianFactorGraph V KeyDimMap).
Implicit Types (es : list (SparseEntry V)).

Lemma setFromTriplets_Some (m a : SpMat V) (ts : list (Triplet V)) :
  setFromTriplets m ts = Some a ->
  rows a = rows m ∧ cols a = cols m ∧
  ∀ t, t ∈ ts -> 0 ≤ row t < rows m ∧ 0 ≤ col t < cols m.
Proof.
  unfold setFromTriplets. destruct (forallb (inside m) ts) eqn:Hall; [|done].
  intros [= <-]. split; [done|]. split; [done|].
  rewrite forallb_forall in Hall. intros t Ht.
  apply list_elem_of_In, Hall in Ht. unfold inside in Ht.
  by apply bool_decide_eq_true in Ht.
Qed.

Lemma max_index_lt (f : SparseEntry V -> N) es (b : N) :
  (0 < b)%N -> (∀ e, (f e < b)%N) -> (max_index f es < b)%N.
Proof.
  intros Hb Hf. induction es as [|e es IH]; simpl; [done|].
  specialize (Hf e). lia.
Qed.

Lemma to_size_t_lt (n : N) : (Machine.to_size_t n < 2 ^ 64)%N.
Proof. unfold Machine.to_size_t, Machine.size_t_modulus. by apply N.mod_lt. Qed.

(** A row count of at least one is the largest index plus one: neither the
    addition nor the conversion to [Eigen::Index] has wrapped. *)
Lemma to_Index_succ_positive (R : N) :
  (R < 2 ^ 64)%N ->
  1 ≤ Machine.to_Index (Machine.size_add R 1) ->
  Machine.to_Index (Machine.size_add R 1) = Z.of_N R + 1.
Proof.
  intros HR. unfold Machine.to_Index, Machine.size_add, Machine.size_t_modulus.
  destruct (decide (R + 1 = 2 ^ 64)%N) as [Heq|Hne].
  - rewrite Heq, N.Div0.mod_same. vm_compute. intros Hle. by destruct Hle.
  - rewrite N.mod_small by lia.
    destruct (decide (Z.of_N (R + 1) < 2 ^ 63)) as [Hlt|Hge].
    + intros _. rewrite MachineFacts.wrap_signed_small; lia.
    + unfold Machine.wrap_signed.
      replace (Z.of_N (R + 1) + 2 ^ (64 - 1))
        with (Z.of_N (R + 1) - 2 ^ 63 + 1 * 2 ^ 64) by lia.
      rewrite Z.mod_add by lia. rewrite Z.mod_small by lia. lia.
Qed.

(** Whenever a matrix is assembled, its shape is one more than the largest
    indices, and fits in an [Eigen::Index]. *)
Lemma shape_of_assembled gfg Ab :
  obtainSparseMatrix gfg = Some Ab ->
  rows Ab = Z.of_N (max_index row_index (sparseJacobian gfg)) + 1 ∧
  cols Ab = Z.of_N (max_index col_index (sparseJacobian gfg)) + 1 ∧
  rows Ab < 2 ^ 63 ∧ cols Ab < 2 ^ 63.
Proof.
  rewrite obtainSparseMatrix_unfold.
  change (Machine.to_size_t ∘ get0) with (row_index (V:=V)).
  change (Machine.to_size_t ∘ get1) with (col_index (V:=V)).
  set (R := max_index row_index (sparseJacobian gfg)).
  set (C := max_index col_index (sparseJacobian gfg)).
  set (r := Machine.to_Index (Machine.size_add R 1)).
  set (c := Machine.to_Index (Machine.size_add C 1)).
  intros HAb. apply setFromTriplets_Some in HAb as (-> & -> & Hin).
  change (rows (SpMat_new r c)) with r in *.
  change (cols (SpMat_new r c)) with c in *.
  assert (R < 2 ^ 64)%N as HR
    by (apply max_index_lt; [done|]; intros e; apply to_size_t_lt).
  assert (C < 2 ^ 64)%N as HC
    by (apply max_index_lt; [done|]; intros e; apply to_size_t_lt).
  assert (r < 2 ^ 63 ∧ c < 2 ^ 63) as [Hr Hc].
  { split; apply wrap_signed_range. }
  assert (1 ≤ r ∧ 1 ≤ c) as [Hr1 Hc1].
  { subst r c R C. destruct (sparseJacobian gfg) as [|e es] eqn:Hes.
    - by vm_compute.
    - destruct (Hin (triplet_of e)) as [Hrow Hcol]; [|lia].
      rewrite fmap_cons. apply list_elem_of_here. }
  split; [by apply to_Index_succ_positive|].
  split; [by apply to_Index_succ_positive|]. done.
Qed.

(** C5. For every entry sequence, whenever the assembly yields a matrix its
    shape is [(R + 1) x (C + 1)], where [R] and [C] are the largest row and
    column index among the entries: the shape comes from the entries alone.
    Without any entry the assembly yields the 1 x 1 matrix, and it yields a
    matrix for every sequence whose indices fit in an [int]. *)
Theorem assembled_shape gfg :
  (∀ Ab, obtainSparseMatrix gfg = Some Ab ->
         ∃ R C, is_max_index row_index (sparseJacobian gfg) R ∧
                is_max_index col_index (sparseJacobian gfg) C ∧
                rows Ab = Z.of_N R + 1 ∧ cols Ab = Z.of_N C + 1) ∧
  (sparseJacobian gfg = [] -> obtainSparseMatrix gfg = Some (SpMat_new 1 1)) ∧
  (fits_int (sparseJacobian gfg) -> is_Some (obtainSparseMatrix gfg)).
Proof.
  split; [|split].
  - intros Ab HAb. apply shape_of_assembled in HAb as (Hr & Hc & _).
    exists (max_index row_index (sparseJacobian gfg)),
           (max_index col_index (sparseJacobian gfg)).
    split; [apply max_index_is_max|]. split; [apply max_index_is_max|]. done.
  - intros Hnil. unfold obtainSparseMatrix. by rewrite Hnil.
  - intros Hfit. rewrite obtainSparseMatrix_fits by done. by eexists.
Qed.



End ShapeAndCheck.

(** ** The entry points without any entry *)
Section NoEntry.
Context {V : Type} `{Scalar V} {KeyDimMap VectorValues : Type}.
Variable mkVectorValues : list V -> KeyDimMap -> VectorValues.
Variable kernel : EigenSolverType -> SpMat V -> SpMat V -> list V.
Implicit Types (gfg : GaussianFactorGraph V KeyDimMap).

(** Without any entry and with one of the four ordering names, the assembled
    matrix is 1 x 1 and stores nothing, no range assertion of the templates
    fails, and each entry point asks Eigen for one factorization: the QR one
    of the 1 x 0 block, for the 1 x 1 right-hand side, the Cholesky one of
    the 0 x 0 product, for the 0 x 1 right-hand side.  The result is built
    from what Eigen returns for them and from the key-to-dimension map. *)
Theorem no_entry_calls gfg orderingType o :
  sparseJacobian gfg = [] ->
  ordering_of orderingType = Some o ->
  obtainSparseMatrix gfg = Some (SpMat_new 1 1) ∧
  optimizeEigenQR mkVectorValues kernel gfg orderingType
    = Some (mkVectorValues
              (kernel (SparseQR o) (SpMat_new 1 0) (SpMat_new 1 1))
              (getKeyDimMap gfg),
            [mkCall (SparseQR o) (SpMat_new 1 0) (SpMat_new 1 1)]) ∧
  optimizeEigenCholesky mkVectorValues kernel gfg orderingType
    = Some (mkVectorValues
              (kernel (SimplicialLDLT_Lower o) (SpMat_new 0 0) (SpMat_new 0 1))
              (getKeyDimMap gfg),
            [mkCall (SimplicialLDLT_Lower o) (SpMat_new 0 0) (SpMat_new 0 1)]).
Proof.
  intros Hnil Ho.
  assert (obtainSparseMatrix gfg = Some (SpMat_new 1 1)) as Hab.
  { unfold obtainSparseMatrix. by rewrite Hnil. }
  split; [exact Hab|].
  rewrite optimizeEigenQR_dispatch, optimizeEigenCholesky_dispatch.
  rewrite Ho, Hab, !bind_lift_Some.
  by rewrite solveQR_degenerate, solveCholesky_degenerate.
Qed.

End NoEntry.

(** ** Instances of the further properties *)

Example two_factors_assembled : obtainSparseMatrix two_factors = Some augmented_two.
Proof. reflexivity. Qed.

Lemma assembled_inside_witness :
  obtainSparseMatrix two_factors = Some augmented_two ∧
  1 ≤ rows augmented_two < 2 ^ 63 ∧ 1 ≤ cols augmented_two < 2 ^ 63 ∧
  ∀ i j, is_Some (coeffs augmented_two !! (i, j)) ->
         0 ≤ i < rows augmented_two ∧ 0 ≤ j < cols augmented_two.
Proof.
  split; [reflexivity|].
  apply (assembled_inside two_factors augmented_two). reflexivity.
Defined.

Lemma assembled_pattern_witness :
  fits_int (sparseJacobian two_factors) ∧
  ∃ Ab, obtainSparseMatrix two_factors = Some Ab ∧
        (∀ i j, is_Some (coeffs Ab !! (i, j)) ↔
                targeting i j (sparseJacobian two_factors) ≠ []) ∧
        (size (coeffs Ab) ≤ length (sparseJacobian two_factors))%nat.
Proof. split; [fits|]. apply (assembled_pattern two_factors). fits. Defined.

Lemma assembled_append_witness :
  sparseJacobian twice_and_one = sparseJacobian twice ++ [mkEntry 1 1 7%float] ∧
  fits_int (sparseJacobian twice_and_one) ∧
  ∃ Ab Ab',
    obtainSparseMatrix twice = Some Ab ∧
    obtainSparseMatrix twice_and_one = Some Ab' ∧
    rows Ab' = Z.max (rows Ab) (1 + 1) ∧ cols Ab' = Z.max (cols Ab) (1 + 1) ∧
    coeffs Ab' !! (1, 1)
      = Some match coeffs Ab !! (1, 1) with
             | Some old => s_add old 7%float
             | None => 7%float
             end ∧
    ∀ k, k ≠ (1, 1) -> coeffs Ab' !! k = coeffs Ab !! k.
Proof.
  split; [reflexivity|]. split; [fits|].
  apply (assembled_append twice twice_and_one (mkEntry 1 1 7%float));
    [reflexivity|fits].
Defined.

Lemma solveQR_splits_witness :
  0 ≤ rows augmented_two < 2 ^ 63 ∧ 1 ≤ cols augmented_two < 2 ^ 63 ∧
  ∃ A b,
    solveQR zero_kernel (SparseQR AMDOrdering) augmented_two
      = Some (zero_kernel (SparseQR AMDOrdering) A b,
              [mkCall (SparseQR AMDOrdering) A b]) ∧
    rows A = rows augmented_two ∧ cols A = cols augmented_two - 1 ∧
    rows b = rows augmented_two ∧ cols b = 1 ∧
    (∀ i j, coeffs A !! (i, j) =
            if decide (0 ≤ i < rows augmented_two ∧
                       0 ≤ j < cols augmented_two - 1)
            then coeffs augmented_two !! (i, j) else None) ∧
    (∀ i j, coeffs b !! (i, j) =
            if decide (0 ≤ i < rows augmented_two ∧ j = 0)
            then coeffs augmented_two !! (i, cols augmented_two - 1)
            else None).
Proof.
  assert (0 ≤ rows augmented_two < 2 ^ 63) as Hr by (simpl; lia).
  assert (1 ≤ cols augmented_two < 2 ^ 63) as Hc by (simpl; lia).
  split; [exact Hr|]. split; [exact Hc|].
  apply (solveQR_splits zero_kernel AMDOrdering augmented_two Hr Hc).
Defined.

Lemma solveCholesky_normal_equations_witness :
  0 ≤ rows augmented_two < 2 ^ 63 ∧ 1 ≤ cols augmented_two < 2 ^ 63 ∧
  ∃ N c,
    solveCholesky zero_kernel (SimplicialLDLT_Lower COLAMDOrdering) augmented_two
      = Some (zero_kernel (SimplicialLDLT_Lower COLAMDOrdering) N c,
              [mkCall (SimplicialLDLT_Lower COLAMDOrdering) N c]) ∧
    rows N = cols augmented_two - 1 ∧ cols N = cols augmented_two - 1 ∧
    rows c = cols augmented_two - 1 ∧ cols c = 1 ∧
    (∀ i j, 0 ≤ i < cols augmented_two - 1 -> 0 ≤ j < cols augmented_two - 1 ->
            coeff N i j = sum_in_order (column_products augmented_two i j)) ∧
    (∀ i, 0 ≤ i < cols augmented_two - 1 ->
          coeff c i 0 = sum_in_order
            (column_products augmented_two i (cols augmented_two - 1))).
Proof.
  assert (0 ≤ rows augmented_two < 2 ^ 63) as Hr by (simpl; lia).
  assert (1 ≤ cols augmented_two < 2 ^ 63) as Hc by (simpl; lia).
  split; [exact Hr|]. split; [exact Hc|].
  apply (solveCholesky_normal_equations zero_kernel COLAMDOrdering
           augmented_two Hr Hc).
Defined.

Lemma normal_matrix_symmetric_witness :
  (∀ x y : float, s_mul x y = s_mul y x) ∧
  0 ≤ rows augmented_two < 2 ^ 63 ∧ 1 ≤ cols augmented_two < 2 ^ 63 ∧
  ∃ N c,
    solveCholesky zero_kernel (SimplicialLDLT_Lower MetisOrdering) augmented_two
      = Some (zero_kernel (SimplicialLDLT_Lower MetisOrdering) N c,
              [mkCall (SimplicialLDLT_Lower MetisOrdering) N c]) ∧
    ∀ i j, coeffs N !! (i, j) = coeffs N !! (j, i).
Proof.
  assert (0 ≤ rows augmented_two < 2 ^ 63) as Hr by (simpl; lia).
  assert (1 ≤ cols augmented_two < 2 ^ 63) as Hc by (simpl; lia).
  assert (∀ x y : float, s_mul x y = s_mul y x) as Hm
    by (intros x y; apply double_mul_comm).
  split; [exact Hm|]. split; [exact Hr|]. split; [exact Hc|].
  apply (normal_matrix_symmetric zero_kernel MetisOrdering augmented_two
           Hm Hr Hc).
Defined.

Lemma optimizeEigenQR_system_witness :
  fits_int (sparseJacobian two_factors) ∧
  ordering_of "AMD" = Some AMDOrdering ∧
  ∃ A b,
    optimizeEigenQR flat_values zero_kernel two_factors "AMD"
      = Some (flat_values (zero_kernel (SparseQR AMDOrdering) A b)
                          (getKeyDimMap two_factors),
              [mkCall (SparseQR AMDOrdering) A b]) ∧
    rows A = Z.of_N (max_index get0 (sparseJacobian two_factors)) + 1 ∧
    cols A = Z.of_N (max_index get1 (sparseJacobian two_factors)) ∧
    rows b = rows A ∧ cols b = 1 ∧
    (∀ i j, j < Z.of_N (max_index get1 (sparseJacobian two_factors)) ->
            coeff A i j
            = sum_in_order (targeting i j (sparseJacobian two_factors))) ∧
    (∀ i, coeff b i 0 =
          sum_in_order
            (targeting i (Z.of_N (max_index get1 (sparseJacobian two_factors)))
                       (sparseJacobian two_factors))).
Proof.
  split; [fits|]. split; [reflexivity|].
  apply (optimizeEigenQR_system flat_values zero_kernel two_factors "AMD"
           AMDOrdering); [fits|reflexivity].
Defined.

Lemma entry_points_same_split_witness :
  fits_int (sparseJacobian two_factors) ∧
  ordering_of "NATURAL" = Some NaturalOrdering ∧
  ∃ A b N c,
    optimizeEigenQR flat_values zero_kernel two_factors "NATURAL"
      = Some (flat_values (zero_kernel (SparseQR NaturalOrdering) A b)
                          (getKeyDimMap two_factors),
              [mkCall (SparseQR NaturalOrdering) A b]) ∧
    optimizeEigenCholesky flat_values zero_kernel two_factors "NATURAL"
      = Some (flat_values (zero_kernel (SimplicialLDLT_Lower NaturalOrdering) N c)
                          (getKeyDimMap two_factors),
              [mkCall (SimplicialLDLT_Lower NaturalOrdering) N c]) ∧
    product (transpose A) A = Some N ∧
    product (transpose A) b = Some c.
Proof.
  split; [fits|]. split; [reflexivity|].
  apply (entry_points_same_split flat_values zero_kernel two_factors "NATURAL"
           NaturalOrdering); [fits|reflexivity].
Defined.

Lemma no_entry_calls_witness :
  sparseJacobian no_factor = [] ∧
  ordering_of "METIS" = Some MetisOrdering ∧
  obtainSparseMatrix no_factor = Some (SpMat_new 1 1) ∧
  optimizeEigenQR flat_values zero_kernel no_factor "METIS"
    = Some (flat_values
              (zero_kernel (SparseQR MetisOrdering) (SpMat_new 1 0)
                           (SpMat_new 1 1))
              (getKeyDimMap no_factor),
            [mkCall (SparseQR MetisOrdering) (SpMat_new 1 0) (SpMat_new 1 1)]) ∧
  optimizeEigenCholesky flat_values zero_kernel no_factor "METIS"
    = Some (flat_values
              (zero_kernel (SimplicialLDLT_Lower MetisOrdering) (SpMat_new 0 0)
                           (SpMat_new 0 1))
              (getKeyDimMap no_factor),
            [mkCall (SimplicialLDLT_Lower MetisOrdering)
                    (SpMat_new 0 0) (SpMat_new 0 1)]).
Proof.
  split; [reflexivity|]. split; [reflexivity|].
  apply (no_entry_calls flat_values zero_kernel no_factor "METIS"
           MetisOrdering); reflexivity.
Defined.

(** ** Instances of the shape and of the range check *)

Lemma assembled_shape_witness :
  obtainSparseMatrix two_factors = Some augmented_two ∧
  ∃ R C, is_max_index row_index (sparseJacobian two_factors) R ∧
         is_max_index col_index (sparseJacobian two_factors) C ∧
         rows augmented_two = Z.of_N R + 1 ∧ cols augmented_two = Z.of_N C + 1.
Proof.
  split; [reflexivity|].
  apply (proj1 (assembled_shape two_factors) augmented_two). reflexivity.
Defined.

(** What the colliding rows assemble to: both values at row [5], in a matrix
    of [2^32 + 6] rows. *)
Example collide_assembled :
  obtainSparseMatrix collide
  = Some (mkSpMat (2 ^ 32 + 6) 1 {[ (5, 0) := 3%float ]}).
Proof. reflexivity. Qed.

(** C1, counterexample. The row index [2^32 + 5] is narrowed to the [int]
    [5] when its triplet is built: the assembly succeeds, and the coefficient
    at [(5, 0)] is [3], the sum of both values, while the one entry that
    targets [(5, 0)] has the value [2]. *)
Lemma narrowed_rows_collide :
  ∃ Ab, obtainSparseMatrix collide = Some Ab ∧
        coeff Ab 5 0 = 3%float ∧
        sum_in_order (targeting 5 0 (sparseJacobian collide)) = 2%float ∧
        coeff Ab 5 0 ≠ sum_in_order (targeting 5 0 (sparseJacobian collide)).
Proof.
  eexists. split; [reflexivity|]. split; [reflexivity|].
  split; [reflexivity|].
  intros Heq. apply (f_equal (λ x, PrimFloat.eqb x 3)) in Heq.
  vm_compute in Heq. discriminate.
Qed.


